(** * msgp: the extension codec, the type ingester and the reference resolver

    A shallow embedding of
    - [msgp/extension.go]: [AppendExtension], [Writer.WriteExtension],
      [peekExtension], [ReadExtensionBytes], [Reader.ReadExtension],
      [RawExtension];
    - the error types of package [msgp] and their [Resumable] methods;
    - package [parse]: [GetTypeSpecs], [GenElem], [parseFieldList],
      [parseExpr], [pullIdent], [findUnresolved], [GetElems];
    - the struct template of [gen/elem_enc.tmpl].

    Conventions.  A Go [byte] is a [Z] in [0, 256); an [int8] is a [Z] in
    [-128, 128); conversions between the two are written out.  A slice is
    the list of its visible elements.  A run-time panic (index or slice
    bound out of range) is the [Panic] outcome of the [exec] monad; a Go
    [error] result is a value of type [option error]. *)

From Stdlib Require Import Ascii.
From stdpp Require Import base option list numbers strings gmap.

Local Open Scope Z_scope.
Set Warnings "-register-all".

(** ** Outcomes of Go code: a normal return or a run-time panic *)

Inductive exec (A : Type) : Type :=
  | Ok (a : A)
  | Panic.
Arguments Ok {A} a.
Arguments Panic {A}.

Global Instance exec_ret : MRet exec := λ A a, Ok a.
Global Instance exec_bind : MBind exec := λ A B f m,
  match m with
  | Ok a => f a
  | Panic => Panic
  end.

(** ** Bytes, fixed-width conversions and slices *)

Definition is_byte (b : Z) : Prop := 0 ≤ b < 256.
Definition is_int8 (t : Z) : Prop := -128 ≤ t < 128.

(** [byte(t)] for [t : int8]. *)
Definition byte_of_int8 (t : Z) : Z := t `mod` 256.
(** [int8(b)] for [b : byte]. *)
Definition int8_of_byte (b : Z) : Z := if decide (b < 128) then b else b - 256.
(** [uint8(l)], [uint16(l)], [uint32(l)] for [l : int]. *)
Definition uint8 (l : Z) : Z := l `mod` 256.
Definition uint16 (l : Z) : Z := l `mod` 65536.
Definition uint32 (l : Z) : Z := l `mod` 4294967296.

(** [b[i]]: panics when [i] is out of range. *)
Definition index (b : list Z) (i : nat) : exec Z :=
  match b !! i with
  | Some x => Ok x
  | None => Panic
  end.

(** [b[i] = v]: panics when [i] is out of range. *)
Definition store (b : list Z) (i : nat) (v : Z) : exec (list Z) :=
  if decide (i < length b)%nat then Ok (<[i:=v]> b) else Panic.

(** [b[lo:]]: panics when [lo > len(b)]. *)
Definition slice_from (b : list Z) (lo : nat) : exec (list Z) :=
  if decide (lo ≤ length b)%nat then Ok (drop lo b) else Panic.

(** [b[:hi]]: panics when [hi > len(b)] (the capacity of a slice is not
    modelled: no function below re-slices past the length). *)
Definition slice_to (b : list Z) (hi : nat) : exec (list Z) :=
  if decide (hi ≤ length b)%nat then Ok (take hi b) else Panic.

(** [b[lo:hi]]: panics unless [lo <= hi <= len(b)]. *)
Definition slice (b : list Z) (lo hi : nat) : exec (list Z) :=
  if decide (lo ≤ hi ∧ hi ≤ length b)%nat then Ok (take (hi - lo) (drop lo b))
  else Panic.

(** The builtin [copy(dst, src)]: the contents of [dst] afterwards. *)
Definition copy (dst src : list Z) : list Z :=
  take (length dst) src ++ drop (length src) dst.

(** Writing the slice [d], which aliases [o[lo:lo+len(d)]], back into [o]. *)
Definition write_back (o : list Z) (lo : nat) (d : list Z) : list Z :=
  take lo o ++ d ++ drop (lo + length d) o.

(** [encoding/binary]'s [BigEndian]: [big.PutUint16(o[off:], v)] and
    friends.  The library functions check the last index they touch first. *)
Definition PutUint16 (o : list Z) (off : nat) (v : Z) : exec (list Z) :=
  s ← slice_from o off;
  _ ← index s 1;
  o ← store o off ((v ≫ 8) `mod` 256);
  store o (off + 1) (v `mod` 256).

Definition PutUint32 (o : list Z) (off : nat) (v : Z) : exec (list Z) :=
  s ← slice_from o off;
  _ ← index s 3;
  o ← store o off ((v ≫ 24) `mod` 256);
  o ← store o (off + 1) ((v ≫ 16) `mod` 256);
  o ← store o (off + 2) ((v ≫ 8) `mod` 256);
  store o (off + 3) (v `mod` 256).

(** [big.Uint16(b[off:])] and [big.Uint32(b[off:])]. *)
Definition Uint16 (b : list Z) (off : nat) : exec Z :=
  s ← slice_from b off;
  _ ← index s 1;
  b0 ← index s 0;
  b1 ← index s 1;
  Ok (Z.lor (b0 ≪ 8) b1).

Definition Uint32 (b : list Z) (off : nat) : exec Z :=
  s ← slice_from b off;
  _ ← index s 3;
  b0 ← index s 0;
  b1 ← index s 1;
  b2 ← index s 2;
  b3 ← index s 3;
  Ok (Z.lor (Z.lor (Z.lor (b0 ≪ 24) (b1 ≪ 16)) (b2 ≪ 8)) b3).

Module msgp.

(** ** Wire prefixes *)

(** Modelled from the spec: the prefix constants of package [msgp] are not
    part of [extension.go]; their values are the ones of the prefix table
    (section 3.2): ext 8/16/32 are [0xc7], [0xc8], [0xc9] and fixext
    1/2/4/8/16 are [0xd4] to [0xd8]. *)
Definition mext8 : Z := 0xc7.
Definition mext16 : Z := 0xc8.
Definition mext32 : Z := 0xc9.
Definition mfixext1 : Z := 0xd4.
Definition mfixext2 : Z := 0xd5.
Definition mfixext4 : Z := 0xd6.
Definition mfixext8 : Z := 0xd7.
Definition mfixext16 : Z := 0xd8.

(** Modelled from the spec: [ExtensionPrefixSize] is declared outside
    [extension.go]; it is the size of the longest extension header of the
    prefix table, the six bytes of ext32 (prefix, four length bytes, type). *)
Definition ExtensionPrefixSize : nat := 6.

(** Modelled from the spec: the wire kinds [msgp.Type] (section 3.1); only
    [ExtensionType] is named in [extension.go], where it also names the
    method of [Extension], hence the [K] prefix here. *)
Inductive Kind : Type :=
  | KInvalid | KStr | KBin | KMap | KArray | KFloat64 | KFloat32 | KBool
  | KInt | KUint | KNil | KExtension.

(** Modelled from the spec: [getType] maps a leading byte to its kind; it
    is not part of [extension.go] and follows the prefix table. *)
Definition getType (v : Z) : Kind :=
  if decide (0x00 ≤ v ≤ 0x7f) then KInt
  else if decide (0x80 ≤ v ≤ 0x8f) then KMap
  else if decide (0x90 ≤ v ≤ 0x9f) then KArray
  else if decide (0xa0 ≤ v ≤ 0xbf) then KStr
  else if decide (v = 0xc0) then KNil
  else if decide (0xc2 ≤ v ≤ 0xc3) then KBool
  else if decide (0xc4 ≤ v ≤ 0xc6) then KBin
  else if decide (0xc7 ≤ v ≤ 0xc9) then KExtension
  else if decide (v = 0xca) then KFloat32
  else if decide (v = 0xcb) then KFloat64
  else if decide (0xcc ≤ v ≤ 0xcf) then KUint
  else if decide (0xd0 ≤ v ≤ 0xd3) then KInt
  else if decide (0xd4 ≤ v ≤ 0xd8) then KExtension
  else if decide (0xd9 ≤ v ≤ 0xdb) then KStr
  else if decide (0xdc ≤ v ≤ 0xdd) then KArray
  else if decide (0xde ≤ v ≤ 0xdf) then KMap
  else if decide (0xe0 ≤ v ≤ 0xff) then KInt
  else KInvalid.

(** ** Errors *)

(** The implementations of the interface [msgp.Error]. *)
Inductive Error : Type :=
  | errShort
  | errFatal
  | ArrayError (Wanted Got : Z)
  | IntOverflow (Value : Z) (FailedBitsize : Z)
  | UintOverflow (Value : Z) (FailedBitsize : Z)
  | TypeError (Method Encoded : Kind)
  | InvalidPrefixError (b : Z)
  | ExtensionTypeError (Got Want : Z).

Definition ErrShortBytes : Error := errShort.
Definition fatal : Error := errFatal.

Definition Resumable (e : Error) : bool :=
  match e with
  | errShort => true
  | errFatal => false
  | ArrayError _ _ => true
  | IntOverflow _ _ => true
  | UintOverflow _ _ => true
  | TypeError _ _ => true
  | InvalidPrefixError _ => false
  | ExtensionTypeError _ _ => true
  end.

Definition errExt (got wanted : Z) : Error :=
  ExtensionTypeError got wanted.

(** A Go [error]: an error of this package, or one that comes from a sink,
    a source or an extension's own methods. *)
Inductive error : Type :=
  | msgpError (e : Error)
  | otherError (msg : string).

(** ** Extensions *)

Class Extension (E : Type) : Type := {
  ExtensionType : E → Z;
  Len : E → nat;
  (* the argument is the destination slice; the result is its contents
     after the call *)
  MarshalBinaryTo : E → list Z → list Z * option error;
  (* the receiver after the call *)
  UnmarshalBinary : E → list Z → E * option error;
}.

Record RawExtension : Type := mkRawExtension {
  Type_ : Z;
  Data : list Z;
}.

Global Instance RawExtension_Extension : Extension RawExtension := {|
  ExtensionType r := Type_ r;
  Len r := length (Data r);
  MarshalBinaryTo r d := (copy d (Data r), None);
  (* both branches of the capacity test leave [r.Data] with length
     [len(b)]; [copy] then fills it with [b] *)
  UnmarshalBinary r b := (mkRawExtension (Type_ r) b, None);
|}.

(** ** The slice encoder *)

(** Modelled from the spec: [ensure] is declared outside [extension.go].
    Writers of the slice API "take (buf, value) and return the grown
    buffer": [ensure b sz] gives [b] extended by [sz] writable bytes and the
    index at which they begin.  The new bytes are zero here; every byte of
    the part [AppendExtension] returns is overwritten before it returns. *)
Definition ensure (b : list Z) (sz : nat) : list Z * nat :=
  (b ++ replicate sz 0, length b).

(** The prefix of the cases 1, 2, 4, 8 and 16 of the switch on the payload
    length, in [AppendExtension] and in [WriteExtension]. *)
Definition fixext_prefix (l : nat) : option Z :=
  match l with
  | 1%nat => Some mfixext1
  | 2%nat => Some mfixext2
  | 4%nat => Some mfixext4
  | 8%nat => Some mfixext8
  | 16%nat => Some mfixext16
  | _ => None
  end.

(** The body of those cases in [AppendExtension]: [o[n] = prefix],
    [o[n+1] = type], [n += 2]. *)
Definition put_fixext (o : list Z) (n : nat) (prefix typ : Z) : exec (list Z * nat) :=
  o ← store o n prefix;
  o ← store o (n + 1) typ;
  Ok (o, (n + 2)%nat).

(** The second switch of [AppendExtension]; [math.MaxUint8] is 255 and
    [math.MaxUint16] is 65535. *)
Definition put_ext (o : list Z) (n l : nat) (typ : Z) : exec (list Z * nat) :=
  if decide (Z.of_nat l < 255) then
    o ← store o n mext8;
    o ← store o (n + 1) (uint8 (Z.of_nat l));
    o ← store o (n + 2) typ;
    Ok (o, (n + 3)%nat)
  else if decide (Z.of_nat l < 65535) then
    o ← store o n mext16;
    o ← PutUint16 o (n + 1) (uint16 (Z.of_nat l));
    o ← store o (n + 3) typ;
    Ok (o, (n + 4)%nat)
  else
    o ← store o n mext32;
    o ← PutUint32 o (n + 1) (uint32 (Z.of_nat l));
    o ← store o (n + 5) typ;
    Ok (o, (n + 6)%nat).

Definition AppendExtension `{Extension E} (b : list Z) (e : E)
    : exec (list Z * option error) :=
  let l := Len e in
  let '(o, n) := ensure b (ExtensionPrefixSize + l) in
  let typ := byte_of_int8 (ExtensionType e) in
  match l with
  | 0%nat =>
      o ← store o n mext8;
      o ← store o (n + 1) 0;
      o ← store o (n + 2) typ;
      r ← slice_to o (n + 3);
      Ok (r, None)
  | _ =>
      (* first switch: no case returns, control reaches the second switch *)
      '(o, n) ← match fixext_prefix l with
                | Some prefix => put_fixext o n prefix typ
                | None => Ok (o, n)
                end;
      '(o, n) ← put_ext o n l typ;
      d ← slice o n (n + l);
      let '(d', err) := MarshalBinaryTo e d in
      r ← slice_to (write_back o n d') (n + l);
      Ok (r, err)
  end.

(** The bytes [AppendExtension] puts before the payload, as they follow
    from the two switches. *)
Definition ext_header (l : nat) (typ : Z) : list Z :=
  if decide (Z.of_nat l < 255) then [mext8; uint8 (Z.of_nat l); typ]
  else if decide (Z.of_nat l < 65535) then
    [mext16; (uint16 (Z.of_nat l) ≫ 8) `mod` 256; uint16 (Z.of_nat l) `mod` 256; typ]
  else
    [mext32; (uint32 (Z.of_nat l) ≫ 24) `mod` 256;
     (uint32 (Z.of_nat l) ≫ 16) `mod` 256; (uint32 (Z.of_nat l) ≫ 8) `mod` 256;
     uint32 (Z.of_nat l) `mod` 256; typ].

Definition appended_header (l : nat) (typ : Z) : list Z :=
  match l with
  | 0%nat => [mext8; 0; typ]
  | _ =>
      match fixext_prefix l with
      | Some prefix => [prefix; typ]
      | None => []
      end ++ ext_header l typ
  end.

(** ** The slice decoder *)

(** The statements of [ReadExtensionBytes] after its switch: the type
    check, the length check and the call of [UnmarshalBinary]. *)
Definition unmarshal_at `{Extension E} (b : list Z) (e : E) (off sz : nat) (typ : Z)
    : exec (list Z * E * option error) :=
  if decide (typ ≠ ExtensionType e) then
    Ok (b, e, Some (msgpError (errExt typ (ExtensionType e))))
  else
    tl ← slice_from b off;
    if decide (length tl < sz)%nat then
      Ok (b, e, Some (msgpError ErrShortBytes))
    else
      rest ← slice_from b (off + sz);
      d ← slice b off (off + sz);
      let '(e', err) := UnmarshalBinary e d in
      Ok (rest, e', err).

(** On every path the result is the remaining bytes, the extension after
    the call and the error. *)
Definition ReadExtensionBytes `{Extension E} (b : list Z) (e : E)
    : exec (list Z * E * option error) :=
  let l := length b in
  if decide (l < 3)%nat then Ok (b, e, Some (msgpError ErrShortBytes))
  else
    lead ← index b 0;
    let fixext (sz : nat) : exec (list Z * E * option error) :=
      t ← index b 1;
      unmarshal_at b e 2%nat sz (int8_of_byte t) in
    if decide (lead = mfixext1) then fixext 1%nat
    else if decide (lead = mfixext2) then fixext 2%nat
    else if decide (lead = mfixext4) then fixext 4%nat
    else if decide (lead = mfixext8) then fixext 8%nat
    else if decide (lead = mfixext16) then fixext 16%nat
    else if decide (lead = mext8) then
      b1 ← index b 1;
      let sz := Z.to_nat (uint8 b1) in
      t ← index b 2;
      let typ := int8_of_byte t in
      if decide (sz = 0%nat) then
        (* returns before the type check *)
        rest ← slice_from b 3;
        d ← slice b 3 3;
        let '(e', err) := UnmarshalBinary e d in
        Ok (rest, e', err)
      else unmarshal_at b e 3%nat sz typ
    else if decide (lead = mext16) then
      if decide (l < 4)%nat then Ok (b, e, Some (msgpError ErrShortBytes))
      else
        v ← Uint16 b 1;
        t ← index b 3;
        unmarshal_at b e 4%nat (Z.to_nat v) (int8_of_byte t)
    else if decide (lead = mext32) then
      if decide (l < 6)%nat then Ok (b, e, Some (msgpError ErrShortBytes))
      else
        v ← Uint32 b 1;
        t ← index b 5;
        unmarshal_at b e 6%nat (Z.to_nat v) (int8_of_byte t)
    else
      Ok (b, e, Some (msgpError (TypeError KExtension (getType lead)))).

(** [peekExtension]: the caller guarantees at least three bytes. *)
Definition peekExtension (b : list Z) : exec (Z * option error) :=
  lead ← index b 0;
  if decide (lead = mfixext1 ∨ lead = mfixext2 ∨ lead = mfixext4
             ∨ lead = mfixext8 ∨ lead = mfixext16) then
    t ← index b 1; Ok (int8_of_byte t, None)
  else if decide (lead = mext8) then
    t ← index b 2; Ok (int8_of_byte t, None)
  else if decide (lead = mext16) then
    if decide (length b < 4)%nat then Ok (0, Some (msgpError ErrShortBytes))
    else t ← index b 3; Ok (int8_of_byte t, None)
  else if decide (lead = mext32) then
    if decide (length b < 5)%nat then Ok (0, Some (msgpError ErrShortBytes))
    else t ← index b 5; Ok (int8_of_byte t, None)
  else Ok (0, Some (msgpError (InvalidPrefixError lead))).

(** ** The streaming encoder *)

(** Modelled from the spec: the type [Writer] and its methods [require] and
    [Flush] are declared outside [extension.go].  Section 4.1: "a Writer
    wraps a sink and owns an output buffer plus an index n.  require(k)
    ensures k contiguous writable bytes, flushing to the sink if necessary;
    returns the offset where those bytes begin."  Section 4.4: "Flush writes
    the current buffer to the sink and resets."  The sink [w] is the list of
    the bytes written to it so far (a sink that never fails, like the
    [bytes.Buffer] of the tests); [wloc] is the index n.  A buffer shorter
    than the [k] bytes asked for is extended, which is how "ensures" is read
    here. *)
Record Writer : Type := mkWriter {
  w : list Z;
  buf : list Z;
  wloc : nat;
}.

Definition set_buf (mw : Writer) (b : list Z) : Writer :=
  mkWriter (w mw) b (wloc mw).

Definition Flush (mw : Writer) : Writer * option error :=
  (mkWriter (w mw ++ take (wloc mw) (buf mw)) (buf mw) 0, None).

Definition require (mw : Writer) (n : nat) : Writer * nat * option error :=
  let mw :=
    if decide (length (buf mw) - wloc mw < n)%nat then fst (Flush mw) else mw in
  let mw := set_buf mw (buf mw ++ replicate (wloc mw + n - length (buf mw)) 0) in
  (mkWriter (w mw) (buf mw) (wloc mw + n), wloc mw, None).

(** [mw.buf[i] = v] *)
Definition store_buf (mw : Writer) (i : nat) (v : Z) : exec Writer :=
  b ← store (buf mw) i v; Ok (set_buf mw b).

(** [mw.buf = append(mw.buf, prefix, typ)]: cases 1, 2, 4, 8 and 16 of
    [WriteExtension]. *)
Definition append_fixext (mw : Writer) (prefix typ : Z) : Writer :=
  set_buf mw (buf mw ++ [prefix; typ]).

Definition WriteExtension `{Extension E} (mw : Writer) (e : E)
    : exec (Writer * option error) :=
  let l := Len e in
  let typ := byte_of_int8 (ExtensionType e) in
  let ext8 (mw : Writer) (len : Z) : exec (Writer * option error) :=
    let '(mw, o, err) := require mw 3 in
    match err with
    | Some err => Ok (mw, Some err)
    | None =>
        mw ← store_buf mw o mext8;
        mw ← store_buf mw (o + 1) len;
        mw ← store_buf mw (o + 2) typ;
        Ok (mw, None)
    end in
  hdr ← match l with
        | 0%nat => ext8 mw 0
        | _ =>
            match fixext_prefix l with
            | Some prefix => Ok (append_fixext mw prefix typ, None)
            | None =>
                if decide (Z.of_nat l < 255) then ext8 mw (uint8 (Z.of_nat l))
                else if decide (Z.of_nat l < 65535) then
                  let '(mw, o, err) := require mw 4 in
                  match err with
                  | Some err => Ok (mw, Some err)
                  | None =>
                      mw ← store_buf mw o mext16;
                      b ← PutUint16 (buf mw) (o + 1) (uint16 (Z.of_nat l));
                      (* [mw.buf[3]], not [mw.buf[o+3]] *)
                      mw ← store_buf (set_buf mw b) 3 typ;
                      Ok (mw, None)
                  end
                else
                  let '(mw, o, err) := require mw 6 in
                  match err with
                  | Some err => Ok (mw, Some err)
                  | None =>
                      mw ← store_buf mw o mext32;
                      b ← PutUint32 (buf mw) (o + 1) (uint32 (Z.of_nat l));
                      (* [mw.buf[5]], not [mw.buf[o+5]] *)
                      mw ← store_buf (set_buf mw b) 5 typ;
                      Ok (mw, None)
                  end
            end
        end;
  match hdr with
  | (mw, Some err) => Ok (mw, Some err)
  | (mw, None) =>
      let '(mw, o, err) := require mw l in
      match err with
      | Some err => Ok (mw, Some err)
      | None =>
          d ← slice_from (buf mw) o;
          let '(d', err) := MarshalBinaryTo e d in
          Ok (set_buf mw (write_back (buf mw) o d'), err)
      end
  end.

(** The bytes a writer has produced once it is flushed. *)
Definition written (mw : Writer) : list Z := w (fst (Flush mw)).

(** ** The streaming decoder *)

(** Modelled from the spec: the type [Reader] and the [Peek] and [Skip] of
    its source [m.r] are declared outside [extension.go].  Section 4.1: "a
    Reader wraps a source supporting Peek(k) (non-advancing, returns an
    error if fewer than k bytes are available) and Skip(k) (advances)";
    section 4.4: "Peek past end of input returns ErrShortBytes unless EOF is
    reached exactly at the boundary".  [r] is the input not yet consumed. *)
Record Reader : Type := mkReader {
  r : list Z;
}.

Definition io_EOF : error := otherError "EOF".

Definition short_read (m : Reader) : error :=
  match r m with
  | [] => io_EOF
  | _ => msgpError ErrShortBytes
  end.

Definition Peek (m : Reader) (n : nat) : list Z * option error :=
  if decide (n ≤ length (r m))%nat then (take n (r m), None)
  else ([], Some (short_read m)).

Definition Skip (m : Reader) (n : nat) : Reader * nat * option error :=
  if decide (n ≤ length (r m))%nat then (mkReader (drop n (r m)), n, None)
  else (m, 0%nat, Some (short_read m)).

(** The common tail of every successful case of [ReadExtension]: peek the
    whole object, hand the payload [p[off:]] to the extension and skip the
    object when unmarshalling succeeded. *)
Definition read_payload `{Extension E} (m : Reader) (e : E) (total off : nat)
    : exec (Reader * E * option error) :=
  match Peek m total with
  | (_, Some err) => Ok (m, e, Some err)
  | (p, None) =>
      d ← slice_from p off;
      match UnmarshalBinary e d with
      | (e', Some err) => Ok (m, e', Some err)
      | (e', None) =>
          let '(m', _, err) := Skip m total in Ok (m', e', err)
      end
  end.

(** The cases fixext 1, 2, 4, 8 and 16 of [ReadExtension]: [p] is the
    result of [Peek(2)] and [total] the size of the whole object. *)
Definition read_fixext `{Extension E} (m : Reader) (e : E) (p : list Z) (total : nat)
    : exec (Reader * E * option error) :=
  t ← index p 1;
  if decide (int8_of_byte t ≠ ExtensionType e) then
    Ok (m, e, Some (msgpError (errExt (int8_of_byte t) (ExtensionType e))))
  else read_payload m e total 2.

(** The cases ext 8, 16 and 32 and the statements after the switch: [hdr]
    is the size of the header, whose last byte is the type, and [size]
    reads the payload length off the peeked header. *)
Definition read_ext `{Extension E} (m : Reader) (e : E) (hdr : nat)
    (size : list Z → exec Z) : exec (Reader * E * option error) :=
  match Peek m hdr with
  | (_, Some err) => Ok (m, e, Some err)
  | (p, None) =>
      t ← index p (hdr - 1);
      if decide (int8_of_byte t ≠ ExtensionType e) then
        Ok (m, e, Some (msgpError (errExt (int8_of_byte t) (ExtensionType e))))
      else
        read ← size p;
        read_payload m e (Z.to_nat read + hdr) hdr
  end.

Definition ReadExtension `{Extension E} (m : Reader) (e : E)
    : exec (Reader * E * option error) :=
  match Peek m 2 with
  | (_, Some err) => Ok (m, e, Some err)
  | (p, None) =>
      lead ← index p 0;
      if decide (lead = mfixext1) then read_fixext m e p 3
      else if decide (lead = mfixext2) then read_fixext m e p 4
      else if decide (lead = mfixext4) then read_fixext m e p 6
      else if decide (lead = mfixext8) then read_fixext m e p 10
      else if decide (lead = mfixext16) then read_fixext m e p 18
      else if decide (lead = mext8) then
        read_ext m e 3 (λ p, b1 ← index p 1; Ok (uint8 b1))
      else if decide (lead = mext16) then read_ext m e 4 (λ p, Uint16 p 1)
      else if decide (lead = mext32) then read_ext m e 6 (λ p, Uint32 p 1)
      else Ok (m, e, Some (msgpError (TypeError KExtension (getType lead))))
  end.

(** [peekExtensionType]: the case of an ext 8/16/32 header of [n] bytes,
    whose last byte is the type. *)
Definition peek_type_at (m : Reader) (n : nat) : exec (Z * option error) :=
  match Peek m n with
  | (_, Some err) => Ok (0, Some err)
  | (p, None) => t ← index p (n - 1); Ok (int8_of_byte t, None)
  end.

Definition peekExtensionType (m : Reader) : exec (Z * option error) :=
  match Peek m 2 with
  | (_, Some err) => Ok (0, Some err)
  | (p, None) =>
      lead ← index p 0;
      if decide (lead = mfixext1 ∨ lead = mfixext2 ∨ lead = mfixext4
                 ∨ lead = mfixext8 ∨ lead = mfixext16) then
        t ← index p 1; Ok (int8_of_byte t, None)
      else if decide (lead = mext8) then peek_type_at m 3
      else if decide (lead = mext16) then peek_type_at m 4
      else if decide (lead = mext32) then peek_type_at m 6
      else Ok (0, Some (msgpError (TypeError KExtension (getType lead))))
  end.

(** The index of the type byte in a header that opens with [lead] (the
    byte [peekExtensionType] returns in each of its cases); [None] for a
    lead byte that opens no extension. *)
Definition type_index (lead : Z) : option nat :=
  if decide (lead = mfixext1 ∨ lead = mfixext2 ∨ lead = mfixext4
             ∨ lead = mfixext8 ∨ lead = mfixext16) then Some 1%nat
  else if decide (lead = mext8) then Some 2%nat
  else if decide (lead = mext16) then Some 3%nat
  else if decide (lead = mext32) then Some 5%nat
  else None.

(** ** The registry *)

(** [RegisterExtension] on the global map [extensionReg], passed in and
    returned; [F] stands for the type [func() Extension] of the factories.
    Both calls of [panic] are the [Panic] outcome. *)
Definition RegisterExtension {F : Type} (extensionReg : gmap Z F) (typ : Z) (f : F)
    : exec (gmap Z F) :=
  if decide (typ = 3 ∨ typ = 4 ∨ typ = 5) then Panic
  else
    match extensionReg !! typ with
    | Some _ => Panic
    | None => Ok (<[typ := f]> extensionReg)
    end.

(** ** What a decoder call can come to *)

(** The two ways a call of [ReadExtensionBytes b e] can end, [res] being
    its result: with [b] and [e] as they were and a resumable error of this
    package, before any call of [UnmarshalBinary]; or with the result of
    [UnmarshalBinary] on a payload that follows a header of two to six bytes
    in [b], and the bytes behind that payload. *)
Definition bytes_outcome `{Extension E} (b : list Z) (e : E)
    (res : exec (list Z * E * option error)) : Prop :=
  (∃ x, Resumable x = true ∧ res = Ok (b, e, Some (msgpError x)))
  ∨ (∃ hdr payload rest,
       b = hdr ++ payload ++ rest ∧ (2 ≤ length hdr ≤ 6)%nat
       ∧ res = Ok (rest, (UnmarshalBinary e payload).1, (UnmarshalBinary e payload).2)).

(** The same for [ReadExtension m e]: an error before [UnmarshalBinary]
    leaves the reader and the extension as they were; otherwise
    [UnmarshalBinary] gets a payload that follows a header in the unread
    input, and the reader moves behind that payload exactly when
    [UnmarshalBinary] returned no error. *)
Definition reader_outcome `{Extension E} (m : Reader) (e : E)
    (res : exec (Reader * E * option error)) : Prop :=
  (∃ err, res = Ok (m, e, Some err))
  ∨ (∃ hdr payload rest,
       r m = hdr ++ payload ++ rest ∧ (2 ≤ length hdr ≤ 6)%nat
       ∧ res = match UnmarshalBinary e payload with
               | (e', Some err) => Ok (m, e', Some err)
               | (e', None) => Ok (mkReader rest, e', None)
               end).

(** ** Well-formed extensions on the wire *)

(** The headers of the prefix table (section 3.2): a fixext prefix and the
    type, or an ext 8/16/32 prefix, the big-endian payload length and the
    type.  [wire_ext hdr typ l] says that [hdr] is a header for a payload of
    [l] bytes with type byte [typ]. *)
Definition be16 (v : Z) : list Z := [(v ≫ 8) `mod` 256; v `mod` 256].
Definition be32 (v : Z) : list Z :=
  [(v ≫ 24) `mod` 256; (v ≫ 16) `mod` 256; (v ≫ 8) `mod` 256; v `mod` 256].

Inductive wire_ext : list Z → Z → nat → Prop :=
  | wire_fixext (prefix typ : Z) (l : nat) :
      fixext_prefix l = Some prefix → wire_ext [prefix; typ] typ l
  | wire_ext8 (typ : Z) (l : nat) :
      Z.of_nat l < 2 ^ 8 → wire_ext [mext8; Z.of_nat l; typ] typ l
  | wire_ext16 (typ : Z) (l : nat) :
      Z.of_nat l < 2 ^ 16 → wire_ext (mext16 :: be16 (Z.of_nat l) ++ [typ]) typ l
  | wire_ext32 (typ : Z) (l : nat) :
      Z.of_nat l < 2 ^ 32 → wire_ext (mext32 :: be32 (Z.of_nat l) ++ [typ]) typ l.

(** The one well-formed header [ReadExtensionBytes] treats apart. *)
Definition is_empty_ext8 (hdr : list Z) (typ : Z) : Prop := hdr = [mext8; 0; typ].

Global Instance is_empty_ext8_dec hdr typ : Decision (is_empty_ext8 hdr typ).
Proof. unfold is_empty_ext8. apply _. Defined.

End msgp.

(** ** The element tree of package [gen] *)

Module gen.

(** Modelled from the spec: the types of package [gen] are declared outside
    the files at hand; their fields are the ones section 3.3 lists and the
    ones [parse] and the templates use.  [Base] has the constants
    [pullIdent] returns. *)
Inductive Base : Type :=
  | String | Bytes | Byte | Int | Int8 | Int16 | Int32 | Int64
  | Uint | Uint8 | Uint16 | Uint32 | Uint64 | Bool | Float64 | Float32
  | Complex64 | Complex128 | Time | Intf | Ext | IDENT.

Global Instance Base_eq_dec : EqDecision Base.
Proof. solve_decision. Defined.

Record BaseElem : Type := mkBaseElem {
  Value : Base;
  Ident : string;
  Convert : bool;
  ShimToBase : string;
  ShimFromBase : string;
}.

Inductive Elem : Type :=
  | Ptr (Value : Elem)
  | Slice (Els : Elem)
  | Array (Size : string) (Els : Elem)
  | Map (Value : Elem)
  | Struct (Name : string) (Fields : list StructField) (AsTuple : bool)
  | BaseE (b : BaseElem)
with StructField : Type :=
  | mkStructField (FieldName FieldTag : string) (FieldElem : Elem).

Definition FieldName (sf : StructField) : string :=
  match sf with mkStructField n _ _ => n end.
Definition FieldTag (sf : StructField) : string :=
  match sf with mkStructField _ t _ => t end.
Definition FieldElem (sf : StructField) : Elem :=
  match sf with mkStructField _ _ e => e end.

(** The result of the method [Type()]; the numbers are the ones
    [elem_enc.tmpl] compares with. *)
Inductive ElemType : Type :=
  | PtrType | SliceType | StructType | BaseType | MapType | ArrayType.

Definition Type_ (e : Elem) : ElemType :=
  match e with
  | Ptr _ => PtrType
  | Slice _ => SliceType
  | Array _ _ => ArrayType
  | Map _ => MapType
  | Struct _ _ _ => StructType
  | BaseE _ => BaseType
  end.

(** A [BaseElem] literal with the fields it does not name left zero. *)
Definition base (v : Base) : BaseElem := mkBaseElem v "" false "" "".
Definition ident (name : string) : BaseElem := mkBaseElem IDENT name false "" "".

(** ** [elem_enc.tmpl] *)

(** The statements an encoder template emits.  The variable names the
    templates print ([.Varname], [.Index], ...) and the method name
    [BaseTempl] chooses ([.BaseName], [.ToBase], [.IsIdent]) are computed by
    methods declared outside the files at hand: the emitted statement for a
    base element carries the element itself. *)
Inductive Stmt : Type :=
  | IfNilWriteNilElse (body : list Stmt)
  | WriteBase (b : BaseElem)
  | WriteMapHeaderLen
  | WriteArrayHeaderLen
  | WriteArrayHeaderSize (size : string)
  | WriteMapHeader (n : nat)
  | WriteArrayHeader (n : nat)
  | WriteString (s : string)
  | WriteKey
  | Range (body : list Stmt).

Fixpoint ElemTempl (e : Elem) : list Stmt :=
  match e with
  | Ptr v => [IfNilWriteNilElse (ElemTempl v)]
  | BaseE b => [WriteBase b]
  | Map v => [WriteMapHeaderLen; Range (WriteKey :: ElemTempl v)]
  | Slice els => [WriteArrayHeaderLen; Range (ElemTempl els)]
  | Array size els => [WriteArrayHeaderSize size; Range (ElemTempl els)]
  | Struct _ fields true =>
      WriteArrayHeader (length fields)
      :: (fix range (fs : list StructField) : list Stmt :=
            match fs with
            | [] => []
            | mkStructField _ _ fe :: fs => ElemTempl fe ++ range fs
            end) fields
  | Struct _ fields false =>
      WriteMapHeader (length fields)
      :: (fix range (fs : list StructField) : list Stmt :=
            match fs with
            | [] => []
            | mkStructField _ tag fe :: fs =>
                WriteString tag :: ElemTempl fe ++ range fs
            end) fields
  end.

Definition StructTempl (name : string) (fields : list StructField) (asTuple : bool)
    : list Stmt :=
  ElemTempl (Struct name fields asTuple).

End gen.

(** ** The syntax trees [parse] reads *)

Module ast.

(** The part of [go/ast] that [parse] looks at.  [OtherExpr] stands for the
    expressions no case of [parseExpr] names (channel and function types,
    parenthesised expressions, ...).  A struct tag is kept as the key/value
    pairs its literal spells in the conventional format; looking one up is
    the standard library's [reflect.StructTag.Get].  [Type] being a keyword,
    the field [Type] of [ast.Field] is [Type_] and the one of
    [ast.TypeSpec] is [Type__]. *)
Inductive Expr : Type :=
  | Ident (Name : string)
  | BasicLit (Value : string)
  | StarExpr (X : Expr)
  | ArrayType (Len : option Expr) (Elt : Expr)
  | MapType (Key Value : Expr)
  | StructType (Fields : list Field)
  | SelectorExpr (X : Expr) (Sel : string)
  | InterfaceType (Methods : list Field)
  | OtherExpr
with Field : Type :=
  | mkField (Names : list string) (Type_ : Expr) (Tag : option (list (string * string))).

Definition Names (f : Field) : list string :=
  match f with mkField ns _ _ => ns end.
Definition Type_ (f : Field) : Expr :=
  match f with mkField _ t _ => t end.
Definition Tag (f : Field) : option (list (string * string)) :=
  match f with mkField _ _ t => t end.

Record TypeSpec : Type := mkTypeSpec {
  Name : string;
  Type__ : Expr;
}.

Inductive Spec : Type :=
  | SpecType (ts : TypeSpec)
  | SpecOther.

Inductive Decl : Type :=
  | GenDecl (Specs : list Spec)
  | OtherDecl.

Record File : Type := mkFile {
  Decls : list Decl;
}.

End ast.

(** ** Standard-library string functions *)

(** [reflect.StructTag.Get]: the value of the first pair with the key, the
    empty string when there is none. *)
Fixpoint StructTag_Get (tag : list (string * string)) (key : string) : string :=
  match tag with
  | [] => ""
  | (name, value) :: tag => if decide (key = name) then value else StructTag_Get tag key
  end.

(** [strings.Split(s, sep)] for a one-character separator. *)
Fixpoint Split (s : string) (sep : Ascii.ascii) : list string :=
  match s with
  | EmptyString => [EmptyString]
  | String.String c s =>
      if decide (c = sep) then EmptyString :: Split s sep
      else match Split s sep with
           | [] => [String.String c EmptyString]
           | h :: t => String.String c h :: t
           end
  end.

Definition HasPrefix (s prefix : string) : bool := String.prefix prefix s.

Definition TrimPrefix (s prefix : string) : string :=
  if HasPrefix s prefix
  then String.substring (String.length prefix) (String.length s - String.length prefix) s
  else s.

(** ** Package [parse]: from declarations to element trees *)

Module parse.
Import ast.

Definition pullIdent (name : string) : gen.Base :=
  if decide (name = "string") then gen.String
  else if decide (name = "[]byte") then gen.Bytes
  else if decide (name = "byte") then gen.Byte
  else if decide (name = "int") then gen.Int
  else if decide (name = "int8") then gen.Int8
  else if decide (name = "int16") then gen.Int16
  else if decide (name = "int32") then gen.Int32
  else if decide (name = "int64") then gen.Int64
  else if decide (name = "uint") then gen.Uint
  else if decide (name = "uint8") then gen.Uint8
  else if decide (name = "uint16") then gen.Uint16
  else if decide (name = "uint32") then gen.Uint32
  else if decide (name = "uint64") then gen.Uint64
  else if decide (name = "bool") then gen.Bool
  else if decide (name = "float64") then gen.Float64
  else if decide (name = "float32") then gen.Float32
  else if decide (name = "complex64") then gen.Complex64
  else if decide (name = "complex128") then gen.Complex128
  else if decide (name = "time.Time") then gen.Time
  else if decide (name = "interface{}") then gen.Intf
  else if decide (name = "msgp.Extension" ∨ name = "Extension") then gen.Ext
  else gen.IDENT.

(** The name of an embedded field; the empty string when the type is
    neither an identifier nor pointers to one. *)
Fixpoint embedded (f : Expr) : string :=
  match f with
  | Ident name => name
  | StarExpr x => embedded x
  | _ => ""
  end.

Definition parseShim (as_ using_ : string) : gen.Base * string * string :=
  let tp := pullIdent (TrimPrefix as_ "as:") in
  match Split (TrimPrefix using_ "using:") "/"%char with
  | [toShim; fromShim] => (tp, toShim, fromShim)
  | _ => (tp, "", "")
  end.

(** The [msgp:...,extension] marking at the end of an iteration of
    [parseFieldList]: the element with its base overwritten by [Ext], or
    [None] when the field is skipped. *)
Definition mark_extension (e : gen.Elem) : option gen.Elem :=
  match e with
  | gen.Ptr (gen.BaseE b) =>
      Some (gen.Ptr (gen.BaseE (gen.mkBaseElem gen.Ext (gen.Ident b) (gen.Convert b)
                                  (gen.ShimToBase b) (gen.ShimFromBase b))))
  | gen.Ptr _ => None
  | gen.BaseE b =>
      Some (gen.BaseE (gen.mkBaseElem gen.Ext (gen.Ident b) (gen.Convert b)
                         (gen.ShimToBase b) (gen.ShimFromBase b)))
  | _ => None
  end.

(** The end of an iteration of the loop [for_fields] of [parseFieldList],
    from the test of [sf.FieldTag] on: the struct fields it appends to
    [out].  [parseExpr] is passed as [pe]. *)
Definition after_tag (pe : Expr → option gen.Elem) (typ : Expr)
    (fieldName fieldTag : string) (flagExtension : bool) : list gen.StructField :=
  if decide (fieldTag = "-") then []
  else
    let fieldTag := if decide (fieldTag = "") then fieldName else fieldTag in
    match pe typ with
    | None => []
    | Some e =>
        if flagExtension then
          match mark_extension e with
          | Some e => [gen.mkStructField fieldName fieldTag e]
          | None => []
          end
        else [gen.mkStructField fieldName fieldTag e]
    end.

(** The part of an iteration after the switch on [len(field.Names)]. *)
Definition tagged (pe : Expr → option gen.Elem) (typ : Expr)
    (tag : option (list (string * string))) (fieldName : string)
    : list gen.StructField :=
  match tag with
  | None => after_tag pe typ fieldName "" false
  | Some tag =>
      let body := StructTag_Get tag "msg" in
      match Split body ","%char with
      | [t0; t1] =>
          after_tag pe typ fieldName t0 (bool_decide (t1 = "extension"))
      | [t0; t1; t2] =>
          if HasPrefix t1 "as:" && HasPrefix t2 "using:" then
            let '(tp, toShim, fromShim) := parseShim t1 t2 in
            if bool_decide (toShim ≠ "") && bool_decide (fromShim ≠ "") then
              [gen.mkStructField fieldName t0
                 (gen.BaseE (gen.mkBaseElem tp "" true toShim fromShim))]
            else []
          else after_tag pe typ fieldName t0 false
      | t0 :: _ => after_tag pe typ fieldName t0 false
      | [] => after_tag pe typ fieldName "" false
      end
  end.

(** The loop over the names of an inline declaration of several fields
    ([A, B T]): the tag is not read. *)
Definition inline_names (pe : Expr → option gen.Elem) (typ : Expr)
    : list string → list gen.StructField :=
  fix range (nms : list string) : list gen.StructField :=
    match nms with
    | [] => []
    | nm :: nms =>
        match pe typ with
        | None => []
        | Some el => gen.mkStructField nm nm el :: range nms
        end
    end.

(** One iteration of the loop [for_fields]. *)
Definition parseField (pe : Expr → option gen.Elem) (field : Field)
    : list gen.StructField :=
  match field with
  | mkField names typ tag =>
      match names with
      | [name] => tagged pe typ tag name
      | [] =>
          let name := embedded typ in
          if decide (name = "") then [] else tagged pe typ tag name
      | _ => inline_names pe typ names
      end
  end.

Definition parseFieldList_with (pe : Expr → option gen.Elem) : list Field → list gen.StructField :=
  fix range (fl : list Field) : list gen.StructField :=
    match fl with
    | [] => []
    | field :: fl => parseField pe field ++ range fl
    end.

Fixpoint parseExpr (e : Expr) : option gen.Elem :=
  match e with
  | MapType key value =>
      match key with
      | Ident k =>
          if decide (k = "string") then
            match parseExpr value with
            | Some in_ => Some (gen.Map in_)
            | None => None
            end
          else None
      | _ => None
      end
  | Ident name =>
      let v := pullIdent name in
      Some (gen.BaseE (gen.mkBaseElem v (if decide (v = gen.IDENT) then name else "")
                         false "" ""))
  | ArrayType len elt =>
      let is_bytes :=
        match len, elt with
        | None, Ident i => bool_decide (i = "byte")
        | _, _ => false
        end in
      if is_bytes then Some (gen.BaseE (gen.base gen.Bytes))
      else
        match parseExpr elt with
        | None => None
        | Some els =>
            match len with
            | Some (BasicLit v) => Some (gen.Array v els)
            | Some (Ident n) => Some (gen.Array n els)
            | Some _ => None
            | None => Some (gen.Slice els)
            end
        end
  | StarExpr x =>
      match parseExpr x with
      | Some v => Some (gen.Ptr v)
      | None => None
      end
  | StructType fields =>
      match parseFieldList_with parseExpr fields with
      | [] => None
      | fields => Some (gen.Struct "" fields false)
      end
  | SelectorExpr x sel =>
      match x with
      | Ident im =>
          if bool_decide (sel = "Time") && bool_decide (im = "time")
          then Some (gen.BaseE (gen.base gen.Time))
          else Some (gen.BaseE (gen.ident (im +:+ "." +:+ sel)))
      | _ => None
      end
  | InterfaceType methods =>
      match methods with
      | [] => Some (gen.BaseE (gen.base gen.Intf))
      | _ => None
      end
  | _ => None
  end.

Definition parseFieldList (fl : list Field) : list gen.StructField :=
  parseFieldList_with parseExpr fl.

(** *** The global tables *)

(* [globalIdents] and [globalProcessed] *)
Record Globals : Type := mkGlobals {
  globalIdents : gmap string gen.Base;
  globalProcessed : gset string;
}.

(** The tables after [init]. *)
Definition init : Globals := mkGlobals ∅ ∅.

(** The switch "record identifier" of [GetTypeSpecs]: the table after one
    type spec. *)
Definition record_ident (idents : gmap string gen.Base) (ts : TypeSpec)
    : gmap string gen.Base :=
  match Type__ ts with
  | StructType _ => <[Name ts := gen.IDENT]> idents
  | Ident name => <[Name ts := pullIdent name]> idents
  | ArrayType _ elt =>
      match elt with
      | Ident name =>
          if decide (name = "byte") then <[Name ts := gen.Bytes]> idents
          else <[Name ts := gen.IDENT]> idents
      | _ => <[Name ts := gen.IDENT]> idents
      end
  | StarExpr _ => <[Name ts := gen.IDENT]> idents
  | MapType _ _ => <[Name ts := gen.IDENT]> idents
  | _ => idents
  end.

(** [GetTypeSpecs]: the type specs of the file, and the table. *)
Definition GetTypeSpecs (idents : gmap string gen.Base) (f : File)
    : gmap string gen.Base * list TypeSpec :=
  foldl (λ acc decl,
           match decl with
           | GenDecl specs =>
               foldl (λ acc s,
                        match s with
                        | SpecType ts => (record_ident acc.1 ts, acc.2 ++ [ts])
                        | SpecOther => acc
                        end) acc specs
           | OtherDecl => acc
           end) (idents, []) (Decls f).

(** [GenElem]: the element, [None] for Go's [nil], and the set of processed
    types. *)
Definition GenElem (processed : gset string) (in_ : TypeSpec)
    : gset string * option gen.Elem :=
  match Type__ in_ with
  | StructType fields =>
      let fs := parseFieldList fields in
      let p := gen.Ptr (gen.Struct (Name in_) fs false) in
      let processed := {[Name in_]} ∪ processed in
      match fs with
      | [] => (processed, None)
      | _ => (processed, Some p)
      end
  | _ => (processed, None)
  end.

(** *** The resolver *)

(** [findUnresolved] rewrites base elements in place and returns the
    identifiers it could not resolve: the result is the tree after the call
    and the returned slice.  No element of a tree built by [parseExpr] is
    shared, so the rewritten tree is the whole effect. *)
Fixpoint findUnresolved (idents : gmap string gen.Base) (processed : gset string)
    (g : gen.Elem) : gen.Elem * list string :=
  match g with
  | gen.Ptr v =>
      let '(v, unr) := findUnresolved idents processed v in (gen.Ptr v, unr)
  | gen.Slice els =>
      let '(els, unr) := findUnresolved idents processed els in (gen.Slice els, unr)
  | gen.BaseE b =>
      if decide (gen.Value b = gen.IDENT) then
        let id := gen.Ident b in
        match idents !! id with
        | Some tp =>
            if decide (id ∈ processed) then (g, [])
            else if decide (tp ≠ gen.IDENT) then
              (gen.BaseE (gen.mkBaseElem tp id true "" ""), [])
            else (g, [id])
        | None => (g, [id])
        end
      else (g, [])
  | gen.Struct nm fields asTuple =>
      let out := if decide (idents !! nm = None ∧ nm ≠ "") then [nm] else [] in
      let '(fields, unr) :=
        (fix range (fs : list gen.StructField) : list gen.StructField * list string :=
           match fs with
           | [] => ([], [])
           | gen.mkStructField name tag fe :: fs =>
               let '(fe, unr) := findUnresolved idents processed fe in
               let '(fs, unrs) := range fs in
               (gen.mkStructField name tag fe :: fs, unr ++ unrs)
           end) fields in
      (gen.Struct nm fields asTuple, out ++ unr)
  | gen.Map v =>
      let '(v, unr) := findUnresolved idents processed v in (gen.Map v, unr)
  | gen.Array _ _ => (g, [])
  end.

(** *** [GetElems], from the parsed files on *)

Definition GetElems (g : Globals) (files : list File)
    : Globals * list gen.Elem * list string :=
  let '(idents, specs) :=
    foldl (λ acc file,
             let '(idents, specs) := GetTypeSpecs acc.1 file in
             (idents, acc.2 ++ specs)) (globalIdents g, []) files in
  match specs with
  | [] => (mkGlobals idents (globalProcessed g), [], [])
  | _ =>
      let '(processed, out) :=
        foldl (λ acc spec,
                 match GenElem acc.1 spec with
                 | (processed, Some el) => (processed, acc.2 ++ [el])
                 | (processed, None) => (processed, acc.2)
                 end) (globalProcessed g, []) specs in
      let '(out, printed) :=
        foldl (λ acc o,
                 let '(o, unr) := findUnresolved idents processed o in
                 (acc.1 ++ [o], acc.2 ++ unr)) ([], []) out in
      (mkGlobals idents processed, out, printed)
  end.

(** *** Notions used to state the properties of [parse] *)

(** The loop over the fields of a struct in [findUnresolved]. *)
Definition resolve_fields (idents : gmap string gen.Base) (processed : gset string)
    : list gen.StructField → list gen.StructField * list string :=
  fix range (fs : list gen.StructField) : list gen.StructField * list string :=
    match fs with
    | [] => ([], [])
    | gen.mkStructField name tag fe :: fs =>
        let '(fe, unr) := findUnresolved idents processed fe in
        let '(fs, unrs) := range fs in
        (gen.mkStructField name tag fe :: fs, unr ++ unrs)
    end.

(** The base elements [findUnresolved] reaches: it walks into [Ptr.Value],
    [Slice.Els], [Map.Value] and the fields of a [Struct]; the switch has no
    case for [Array]. *)
Fixpoint walked_bases (g : gen.Elem) : list gen.BaseElem :=
  match g with
  | gen.Ptr v => walked_bases v
  | gen.Slice els => walked_bases els
  | gen.Map v => walked_bases v
  | gen.BaseE b => [b]
  | gen.Struct _ fields _ =>
      (fix range (fs : list gen.StructField) : list gen.BaseElem :=
         match fs with
         | [] => []
         | gen.mkStructField _ _ fe :: fs => walked_bases fe ++ range fs
         end) fields
  | gen.Array _ _ => []
  end.

(** What is known of a base element that is still [IDENT] in the tree
    [g'] that [findUnresolved] made of [g], [unr] being the identifiers it
    returned. *)
Definition remaining_ok (idents : gmap string gen.Base) (processed : gset string)
    (g' : gen.Elem) (unr : list string) (g : gen.Elem) : Prop :=
  ∀ b, b ∈ walked_bases g' → gen.Value b = gen.IDENT →
    b ∈ walked_bases g
    ∧ (gen.Ident b ∈ processed ∨ gen.Ident b ∈ unr)
    ∧ (gen.Ident b ∉ processed →
       idents !! gen.Ident b = None ∨ idents !! gen.Ident b = Some gen.IDENT).

(** The type specs of a declaration and of a file, in the order
    [GetTypeSpecs] meets them. *)
Definition spec_types (specs : list Spec) : list TypeSpec :=
  flat_map (λ s, match s with SpecType ts => [ts] | SpecOther => [] end) specs.

Definition decl_types (decl : Decl) : list TypeSpec :=
  match decl with
  | GenDecl specs => spec_types specs
  | OtherDecl => []
  end.

Definition type_specs (f : File) : list TypeSpec :=
  flat_map decl_types (Decls f).

(** The base kind pass 1 records for a type expression, [None] for the
    expressions it does not record. *)
Definition recorded_kind (t : Expr) : option gen.Base :=
  match t with
  | StructType _ | StarExpr _ | MapType _ _ => Some gen.IDENT
  | Ident name => Some (pullIdent name)
  | ArrayType _ (Ident name) =>
      if decide (name = "byte") then Some gen.Bytes else Some gen.IDENT
  | ArrayType _ _ => Some gen.IDENT
  | _ => None
  end.



(** The value of the [msg] key of a field's tag; empty without a tag. *)
Definition msg_body (tag : option (list (string * string))) : string :=
  match tag with
  | None => ""
  | Some tag => StructTag_Get tag "msg"
  end.

(** A field declared on its own (one name, or embedded) whose [msg] value
    has no option after a comma: no tag, [msg:"name"] or [msg:"-"]. *)
Definition plain_field (f : Field) : Prop :=
  (length (Names f) ≤ 1)%nat
  ∧ Split (msg_body (Tag f)) ","%char = [msg_body (Tag f)].

(** The tag rules in the words of the specification (section 4.5): a
    missing tag gives the field name as wire key, [msg:"name"] gives
    [name], [msg:"-"] omits the field; a field whose type is not supported
    or whose embedded name cannot be derived is skipped. *)
Definition wire_field (f : Field) : list gen.StructField :=
  let body := msg_body (Tag f) in
  let name :=
    match Names f with
    | [] => embedded (Type_ f)
    | name :: _ => name
    end in
  if decide (Names f = [] ∧ name = "") then []
  else if decide (body = "-") then []
  else
    match parseExpr (Type_ f) with
    | None => []
    | Some e =>
        [gen.mkStructField name (if decide (body = "") then name else body) e]
    end.

(** Every [Struct] node of a tree, the ones below an [Array] included,
    root first. *)
Fixpoint structs (g : gen.Elem) : list gen.Elem :=
  match g with
  | gen.Ptr v => structs v
  | gen.Slice els => structs els
  | gen.Array _ els => structs els
  | gen.Map v => structs v
  | gen.BaseE _ => []
  | gen.Struct _ fields _ =>
      g :: (fix range (fs : list gen.StructField) : list gen.Elem :=
              match fs with
              | [] => []
              | gen.mkStructField _ _ fe :: fs => structs fe ++ range fs
              end) fields
  end.

(** A nested record as [parseExpr] builds it: no name, at least one
    field, encoded as a map. *)
Definition anonymous_struct (s : gen.Elem) : Prop :=
  ∃ fs, s = gen.Struct "" fs false ∧ fs ≠ [].

(** The string [s] does not contain the character [sep]. *)
Fixpoint free_of (sep : Ascii.ascii) (s : string) : bool :=
  match s with
  | EmptyString => true
  | String.String c s => if decide (c = sep) then false else free_of sep s
  end.

(** The base element [b] with its [Value] overwritten by [Ext], as the
    extension marking of [parseFieldList] leaves it. *)
Definition as_extension (b : gen.BaseElem) : gen.BaseElem :=
  gen.mkBaseElem gen.Ext (gen.Ident b) (gen.Convert b) (gen.ShimToBase b)
    (gen.ShimFromBase b).

(** The type specs of the files of a unit, in the order [GetElems] meets
    them, and the trees it builds of them before resolution. *)
Definition unit_specs (files : list File) : list TypeSpec :=
  flat_map type_specs files.

Definition struct_tree (ts : TypeSpec) : option gen.Elem := (GenElem ∅ ts).2.

(** The type expressions [parseExpr] makes a base element of: an
    identifier, a selector, an interface type and the byte slice. *)
Definition leaf_type (e : Expr) : Prop :=
  match e with
  | Ident _ | SelectorExpr _ _ | InterfaceType _ => True
  | ArrayType None (Ident name) => name = "byte"
  | _ => False
  end.

(** The field declaration [f] declares the name [name]: as one of its
    names, or as the name of its embedded type. *)
Definition declares (f : Field) (name : string) : Prop :=
  name ∈ Names f ∨ (Names f = [] ∧ name = embedded (Type_ f)).

(** The element tree [v] has the shape of the type expression [e], node by
    node: a [Ptr] for a [*] and for nothing else, a [Slice], [Array] or
    [Map] for a slice, array or map type, a base element for a leaf type,
    and a [Struct] for a struct type, each of whose fields either holds a
    converting base element (the [as:]/[using:] tag, which replaces the
    declared type) or has the shape of the type of the field declaration
    that declares its name. *)
Inductive mirrors : Expr → gen.Elem → Prop :=
  | mirrors_leaf (e : Expr) (b : gen.BaseElem) :
      leaf_type e → mirrors e (gen.BaseE b)
  | mirrors_star (x : Expr) (v : gen.Elem) :
      mirrors x v → mirrors (StarExpr x) (gen.Ptr v)
  | mirrors_slice (elt : Expr) (v : gen.Elem) :
      ¬ leaf_type (ArrayType None elt) → mirrors elt v →
      mirrors (ArrayType None elt) (gen.Slice v)
  | mirrors_array (len elt : Expr) (size : string) (v : gen.Elem) :
      mirrors elt v → mirrors (ArrayType (Some len) elt) (gen.Array size v)
  | mirrors_map (key value : Expr) (v : gen.Elem) :
      mirrors value v → mirrors (MapType key value) (gen.Map v)
  | mirrors_struct (fields : list Field) (nm : string)
        (fs : list gen.StructField) (asTuple : bool) :
      Forall (λ sf,
                (∃ b, gen.FieldElem sf = gen.BaseE b ∧ gen.Convert b = true)
                ∨ (∃ f, f ∈ fields ∧ declares f (gen.FieldName sf)
                        ∧ mirrors (Type_ f) (gen.FieldElem sf))) fs →
      mirrors (StructType fields) (gen.Struct nm fs asTuple).

End parse.

(** ** Compilation units used as examples *)

Module examples.
Import ast.

Definition type_decl (name : string) (t : Expr) : Decl :=
  GenDecl [SpecType (mkTypeSpec name t)].

(** [type Foo struct { Bar int `msg:"b"`; Skip string `msg:"-"`; Keep bool }] *)
Definition Foo_fields : list Field :=
  [mkField ["Bar"] (Ident "int") (Some [("msg", "b")]);
   mkField ["Skip"] (Ident "string") (Some [("msg", "-")]);
   mkField ["Keep"] (Ident "bool") None].

Definition Foo_unit : File :=
  mkFile [type_decl "Foo" (StructType Foo_fields)].

(** [type T struct { A, B int `msg:"-"` }] *)
Definition AB_fields : list Field :=
  [mkField ["A"; "B"] (Ident "int") (Some [("msg", "-")])].

(** [type T struct { A int `msg:"-"`; B int `msg:"-"` }]: the same fields
    and the same tag, each field declared on its own *)
Definition AB_separate_fields : list Field :=
  [mkField ["A"] (Ident "int") (Some [("msg", "-")]);
   mkField ["B"] (Ident "int") (Some [("msg", "-")])].

(** [type Celsius float64] and [type Thermo struct { T Celsius }] *)
Definition Thermo_unit : File :=
  mkFile [type_decl "Celsius" (Ident "float64");
          type_decl "Thermo" (StructType [mkField ["T"] (Ident "Celsius") None])].

(** [type Celsius float64] and [type Thermo struct { T [3]Celsius }] *)
Definition Thermo_array_unit : File :=
  mkFile [type_decl "Celsius" (Ident "float64");
          type_decl "Thermo"
            (StructType [mkField ["T"] (ArrayType (Some (BasicLit "3")) (Ident "Celsius")) None])].

(** [type A struct { X int }] and [type B struct { F A }] *)
Definition AB_unit : File :=
  mkFile [type_decl "A" (StructType [mkField ["X"] (Ident "int") None]);
          type_decl "B" (StructType [mkField ["F"] (Ident "A") None])].

(** The tree of [B] in [AB_unit]. *)
Definition B_tree : gen.Elem :=
  gen.Ptr (gen.Struct "B" [gen.mkStructField "F" "F" (gen.BaseE (gen.ident "A"))] false).

(** [type Thermo struct { T Celsius }] in a unit that does not declare
    [Celsius] *)
Definition Thermo_alone_unit : File :=
  mkFile [type_decl "Thermo" (StructType [mkField ["T"] (Ident "Celsius") None])].

(** [type Hash [32]byte] *)
Definition Hash_spec : TypeSpec :=
  mkTypeSpec "Hash" (ArrayType (Some (BasicLit "32")) (Ident "byte")).
Definition Hash_unit : File := mkFile [GenDecl [SpecType Hash_spec]].


End examples.

(** * Properties of the extension codec *)

Module extension_proofs.
Import msgp.

(** ** Resumability *)

(** C9.  Every error of the codec reports the resumability of the error
    taxonomy: [ErrShortBytes], [TypeError], [IntOverflow], [UintOverflow],
    [ArrayError] and [ExtensionTypeError] are resumable, whatever their
    fields; [InvalidPrefixError] and the fatal error are not. *)
Theorem Resumable_taxonomy :
  Resumable ErrShortBytes = true
  ∧ (∀ method encoded, Resumable (TypeError method encoded) = true)
  ∧ (∀ value bits, Resumable (IntOverflow value bits) = true)
  ∧ (∀ value bits, Resumable (UintOverflow value bits) = true)
  ∧ (∀ wanted got, Resumable (ArrayError wanted got) = true)
  ∧ (∀ got want, Resumable (ExtensionTypeError got want) = true)
  ∧ (∀ b, Resumable (InvalidPrefixError b) = false)
  ∧ Resumable fatal = false.
Proof. repeat split. Qed.

(** The errors the functions of this file build are all resumable but the
    invalid prefix of [peekExtension]. *)
Lemma Resumable_errExt got wanted : Resumable (errExt got wanted) = true.
Proof. reflexivity. Qed.

(** ** [peekExtension] *)

(** C10.  On the five bytes of an ext32 header cut before its type byte,
    [peekExtension] passes its length test ([len(b) < 5] is false) and
    indexes [b[5]], past the end of [b]: it panics instead of returning
    [ErrShortBytes]. *)
Theorem peekExtension_ext32_five_bytes_panics :
  peekExtension [mext32; 0; 0; 0; 1] = Panic.
Proof. reflexivity. Qed.

(** The same for every five-byte slice that starts with the ext32 prefix. *)
Lemma peekExtension_ext32_len5 (b : list Z) :
  b !! 0%nat = Some mext32 → length b = 5%nat → peekExtension b = Panic.
Proof.
  intros Hlead Hlen.
  do 6 (destruct b as [|? b]; try discriminate).
  simplify_eq/=. reflexivity.
Qed.

(** Shorter inputs are refused and longer ones give the type byte: the
    guard is off by one only at length five. *)
Lemma peekExtension_ext32_short (b : list Z) :
  b !! 0%nat = Some mext32 → (length b < 5)%nat →
  peekExtension b = Ok (0, Some (msgpError ErrShortBytes)).
Proof.
  intros Hlead Hlen. unfold peekExtension, index. rewrite Hlead. simpl.
  case_decide; [reflexivity | lia].
Qed.

Lemma peekExtension_ext32_long (b : list Z) (t : Z) :
  b !! 0%nat = Some mext32 → b !! 5%nat = Some t →
  peekExtension b = Ok (int8_of_byte t, None).
Proof.
  intros Hlead Ht. unfold peekExtension, index. rewrite Hlead. simpl.
  apply lookup_lt_Some in Ht as Hlen.
  case_decide; [lia |]. rewrite Ht. reflexivity.
Qed.

(** [ReadExtensionBytes] asks for six bytes at the same place. *)
Lemma ReadExtensionBytes_ext32_five_bytes (e : RawExtension) :
  ReadExtensionBytes [mext32; 0; 0; 0; 1] e
  = Ok ([mext32; 0; 0; 0; 1], e, Some (msgpError ErrShortBytes)).
Proof. reflexivity. Qed.

(** ** Type mismatch *)

(** C3.  An ext8 object of length zero and wire type 10, decoded by
    [ReadExtensionBytes] into an extension of type 11: the case returns
    before the type check, so the call reports no error and
    [UnmarshalBinary] runs (the receiver's data is replaced by the empty
    payload). *)
Theorem ReadExtensionBytes_empty_ext8_skips_type_check :
  ReadExtensionBytes [mext8; 0; 10] (mkRawExtension 11 [1; 2; 3])
  = Ok ([], mkRawExtension 11 [], None).
Proof. reflexivity. Qed.

(** The early return, for every extension and every wire type. *)
Lemma ReadExtensionBytes_empty_ext8 `{Extension E} (t : Z) (rest : list Z) (e : E) :
  ReadExtensionBytes (mext8 :: 0 :: t :: rest) e
  = Ok (rest, (UnmarshalBinary e []).1, (UnmarshalBinary e []).2).
Proof.
  unfold ReadExtensionBytes. simpl.
  rewrite take_0, drop_0. by destruct (UnmarshalBinary e []).
Qed.

(** [Reader.ReadExtension] checks the type on the same input. *)
Lemma ReadExtension_empty_ext8_checks_type :
  ReadExtension (mkReader [mext8; 0; 10]) (mkRawExtension 11 [1; 2; 3])
  = Ok (mkReader [mext8; 0; 10], mkRawExtension 11 [1; 2; 3],
        Some (msgpError (ExtensionTypeError 10 11))).
Proof. reflexivity. Qed.

(** ** Round trip and header choice *)

(** *** Writing behind a prefix *)

Lemma store_app_r (b xs : list Z) (n k : nat) (v : Z) :
  n = (length b + k)%nat → (k < length xs)%nat →
  store (b ++ xs) n v = Ok (b ++ <[k:=v]> xs).
Proof.
  intros -> Hk. unfold store. rewrite length_app.
  rewrite decide_True by lia. by rewrite insert_app_r.
Qed.

Lemma put_fixext_app (b xs : list Z) (n : nat) (prefix typ : Z) :
  n = length b → (2 ≤ length xs)%nat →
  put_fixext (b ++ xs) n prefix typ = Ok (b ++ [prefix; typ] ++ drop 2 xs, (n + 2)%nat).
Proof.
  intros -> Hlen. destruct xs as [|x0 [|x1 xs]]; simpl in Hlen; try lia.
  unfold put_fixext.
  rewrite (store_app_r b _ _ 0) by (simpl; lia). simpl.
  rewrite (store_app_r b _ _ 1) by (simpl; lia). simpl. by rewrite drop_0.
Qed.

Lemma PutUint16_app_r (b xs : list Z) (n k : nat) (v : Z) :
  n = (length b + k)%nat → (k + 2 ≤ length xs)%nat →
  PutUint16 (b ++ xs) n v
  = Ok (b ++ <[S k := v `mod` 256]> (<[k := (v ≫ 8) `mod` 256]> xs)).
Proof.
  intros -> Hk. unfold PutUint16, slice_from. rewrite length_app.
  rewrite decide_True by lia. simpl.
  destruct (lookup_lt_is_Some_2 (drop (length b + k) (b ++ xs)) 1) as [x Hx].
  { rewrite length_drop, length_app. lia. }
  unfold index at 1. rewrite Hx. simpl.
  rewrite (store_app_r b xs _ k) by lia. simpl.
  rewrite (store_app_r b _ _ (S k)) by (rewrite ?length_insert; lia). done.
Qed.

Lemma PutUint32_app_r (b xs : list Z) (n k : nat) (v : Z) :
  n = (length b + k)%nat → (k + 4 ≤ length xs)%nat →
  PutUint32 (b ++ xs) n v
  = Ok (b ++ <[S (S (S k)) := v `mod` 256]>
               (<[S (S k) := (v ≫ 8) `mod` 256]>
                  (<[S k := (v ≫ 16) `mod` 256]>
                     (<[k := (v ≫ 24) `mod` 256]> xs)))).
Proof.
  intros -> Hk. unfold PutUint32, slice_from. rewrite length_app.
  rewrite decide_True by lia. simpl.
  destruct (lookup_lt_is_Some_2 (drop (length b + k) (b ++ xs)) 3) as [x Hx].
  { rewrite length_drop, length_app. lia. }
  unfold index at 1. rewrite Hx. simpl.
  rewrite (store_app_r b xs _ k) by lia. simpl.
  rewrite (store_app_r b _ _ (S k)) by (rewrite ?length_insert; lia). simpl.
  rewrite (store_app_r b _ _ (S (S k))) by (rewrite ?length_insert; lia). simpl.
  rewrite (store_app_r b _ _ (S (S (S k)))) by (rewrite ?length_insert; lia). done.
Qed.

Lemma length_ext_header (l : nat) (typ : Z) :
  (length (ext_header l typ) ≤ 6)%nat.
Proof. unfold ext_header. repeat case_decide; simpl; lia. Qed.

Lemma put_ext_app (b xs : list Z) (n l : nat) (typ : Z) :
  n = length b → (length (ext_header l typ) ≤ length xs)%nat →
  put_ext (b ++ xs) n l typ
  = Ok (b ++ ext_header l typ ++ drop (length (ext_header l typ)) xs,
        (n + length (ext_header l typ))%nat).
Proof.
  intros -> Hlen. unfold put_ext, ext_header in *.
  destruct (decide (Z.of_nat l < 255)); [|destruct (decide (Z.of_nat l < 65535))];
    simpl in Hlen.
  - destruct xs as [|x0 [|x1 [|x2 xs]]]; simpl in Hlen; try lia.
    rewrite (store_app_r b _ _ 0) by (simpl; lia). simpl.
    rewrite (store_app_r b _ _ 1) by (simpl; lia). simpl.
    rewrite (store_app_r b _ _ 2) by (simpl; lia). simpl. by rewrite drop_0.
  - destruct xs as [|x0 [|x1 [|x2 [|x3 xs]]]]; simpl in Hlen; try lia.
    rewrite (store_app_r b _ _ 0) by (simpl; lia). simpl.
    rewrite (PutUint16_app_r b _ _ 1) by (simpl; lia). simpl.
    rewrite (store_app_r b _ _ 3) by (simpl; lia). simpl. by rewrite drop_0.
  - destruct xs as [|x0 [|x1 [|x2 [|x3 [|x4 [|x5 xs]]]]]]; simpl in Hlen; try lia.
    rewrite (store_app_r b _ _ 0) by (simpl; lia). simpl.
    rewrite (PutUint32_app_r b _ _ 1) by (simpl; lia). simpl.
    rewrite (store_app_r b _ _ 5) by (simpl; lia). simpl. by rewrite drop_0.
Qed.

(** The last three statements of [AppendExtension] on a [RawExtension]. *)
Lemma marshal_tail (pre tail data : list Z) (t : Z) (n : nat) :
  n = length pre → (length data ≤ length tail)%nat →
  (d ← slice (pre ++ tail) n (n + length data);
   let '(d', err) := MarshalBinaryTo (mkRawExtension t data) d in
   r ← slice_to (write_back (pre ++ tail) n d') (n + length data);
   Ok (r, err))
  = Ok (pre ++ data, None).
Proof.
  intros -> Hlen. unfold slice. rewrite length_app.
  rewrite decide_True by lia. simpl.
  replace (length pre + length data - length pre)%nat with (length data) by lia.
  rewrite drop_app_length.
  unfold copy. rewrite length_take, Nat.min_l by lia.
  rewrite firstn_all, drop_ge by (rewrite length_take; lia).
  rewrite app_nil_r.
  unfold write_back, slice_to. rewrite take_app_length.
  rewrite !length_app, length_drop, length_app.
  rewrite decide_True by lia.
  rewrite app_assoc. rewrite take_app_le by (rewrite length_app; lia).
  rewrite take_ge by (rewrite length_app; lia). reflexivity.
Qed.

Lemma fixext_prefix_Some (l : nat) (prefix : Z) :
  fixext_prefix l = Some prefix →
  (l = 1 ∨ l = 2 ∨ l = 4 ∨ l = 8 ∨ l = 16)%nat.
Proof.
  intros Hp. do 17 (destruct l as [|l]; [simpl in Hp; lia || discriminate|]).
  discriminate.
Qed.

Lemma fixext_prefix_None (l : nat) :
  (l ≠ 1 ∧ l ≠ 2 ∧ l ≠ 4 ∧ l ≠ 8 ∧ l ≠ 16)%nat → fixext_prefix l = None.
Proof.
  intros Hl. do 17 (destruct l as [|l]; [reflexivity || lia|]). reflexivity.
Qed.

Lemma exec_bind_Ok {A B : Type} (a : A) (f : A → exec B) : (Ok a ≫= f) = f a.
Proof. reflexivity. Qed.

(** What [AppendExtension] appends for a [RawExtension], for every type
    and every payload: the header of the two switches, then the payload. *)
Lemma AppendExtension_RawExtension (b : list Z) (t : Z) (data : list Z) :
  AppendExtension b (mkRawExtension t data)
  = Ok (b ++ appended_header (length data) (byte_of_int8 t) ++ data, None).
Proof.
  unfold AppendExtension, ensure, appended_header. simpl Len. simpl ExtensionType.
  set (typ := byte_of_int8 t).
  destruct (length data) as [|l'] eqn:Hl.
  { apply nil_length_inv in Hl as ->. simpl.
    rewrite (store_app_r b _ _ 0) by (simpl; lia). simpl.
    rewrite (store_app_r b _ _ 1) by (simpl; lia). simpl.
    rewrite (store_app_r b _ _ 2) by (simpl; lia). simpl.
    unfold slice_to. rewrite length_app. simpl. rewrite decide_True by lia.
    rewrite take_app_add'; done. }
  rewrite <- Hl. clear l' Hl.
  set (xs := replicate (ExtensionPrefixSize + length data) 0).
  assert (Hxs : length xs = (6 + length data)%nat)
    by (unfold xs; by rewrite length_replicate).
  clearbody xs.
  pose proof (length_ext_header (length data) typ) as Hh.
  destruct (fixext_prefix (length data)) as [prefix|] eqn:Hp.
  - assert (Hsmall : Z.of_nat (length data) < 255)
      by (apply fixext_prefix_Some in Hp; lia).
    assert (Hh3 : length (ext_header (length data) typ) = 3%nat)
      by (unfold ext_header; by rewrite decide_True).
    rewrite put_fixext_app by lia. rewrite exec_bind_Ok.
    rewrite (app_assoc b [prefix; typ]).
    rewrite put_ext_app by (rewrite ?length_app, ?length_drop; simpl; lia).
    rewrite exec_bind_Ok. rewrite !app_assoc.
    rewrite marshal_tail; [by rewrite <- !app_assoc | |].
    + rewrite !length_app. simpl. lia.
    + rewrite !length_drop. lia.
  - rewrite exec_bind_Ok. rewrite put_ext_app by lia. rewrite exec_bind_Ok.
    rewrite app_assoc. rewrite marshal_tail; [by rewrite <- app_assoc | |].
    + rewrite !length_app. lia.
    + rewrite length_drop. lia.
Qed.

(** *** Decoding a well-formed object *)

Lemma int8_of_byte_of_int8 (t : Z) : is_int8 t → int8_of_byte (byte_of_int8 t) = t.
Proof.
  unfold is_int8, int8_of_byte, byte_of_int8. intros Ht.
  destruct (decide (0 ≤ t)).
  - rewrite Z.mod_small by lia. case_decide; lia.
  - replace (t `mod` 256) with (t + 256).
    + case_decide; lia.
    + apply (Z.mod_unique_pos _ _ (-1)); lia.
Qed.

Lemma byte_of_int8_is_byte (t : Z) : is_byte (byte_of_int8 t).
Proof. unfold is_byte, byte_of_int8. apply Z.mod_pos_bound. lia. Qed.

Lemma lor_shiftl_byte (hi lo : Z) :
  0 ≤ lo < 256 → Z.lor (hi ≪ 8) lo = hi * 256 + lo.
Proof.
  intros Hlo.
  rewrite Z.shiftl_mul_pow2 by lia. change (2 ^ 8) with 256.
  rewrite <- Z.lxor_lor, <- Z.add_nocarry_lxor; [done| |].
  all: apply Z.bits_inj'; intros n Hn; rewrite Z.land_spec, Z.bits_0.
  all: destruct (decide (n < 8)).
  all: try (replace (hi * 256) with (hi * 2 ^ 8) by lia; rewrite Z.mul_pow2_bits_low by lia; done).
  all: rewrite (Z.bits_above_log2 lo n); [by rewrite andb_false_r|lia|].
  all: destruct (decide (lo = 0)) as [->|]; [simpl; lia|].
  all: apply Z.log2_lt_pow2; [lia|]; apply Z.lt_le_trans with (2 ^ 8); [lia|]; apply Z.pow_le_mono_r; lia.
Qed.

Lemma be16_decode (l : Z) :
  0 ≤ l < 65536 → Z.lor (((l ≫ 8) `mod` 256) ≪ 8) (l `mod` 256) = l.
Proof.
  intros Hl. rewrite lor_shiftl_byte by (apply Z.mod_pos_bound; lia).
  rewrite Z.shiftr_div_pow2 by lia. change (2 ^ 8) with 256.
  rewrite (Z.mod_small (l `div` 256)) by (split; [apply Z.div_pos; lia | apply Z.div_lt_upper_bound; lia]).
  rewrite Z.mul_comm. symmetry. apply Z.div_mod. lia.
Qed.

Lemma be32_decode (l : Z) :
  0 ≤ l < 4294967296 →
  Z.lor (Z.lor (Z.lor (((l ≫ 24) `mod` 256) ≪ 24) (((l ≫ 16) `mod` 256) ≪ 16))
               (((l ≫ 8) `mod` 256) ≪ 8)) (l `mod` 256) = l.
Proof.
  intros Hl.
  apply Z.bits_inj'. intros n Hn.
  rewrite !Z.lor_spec.
  assert (Hb : ∀ k, 0 ≤ k → Z.testbit (((l ≫ k) `mod` 256) ≪ k) n
     = bool_decide (k ≤ n < k + 8) && Z.testbit l n).
  { intros k Hk. destruct (decide (n < k)).
    - rewrite Z.shiftl_spec_low by lia. rewrite bool_decide_eq_false_2 by lia. done.
    - rewrite Z.shiftl_spec by lia. change 256 with (2 ^ 8).
      destruct (decide (n - k < 8)).
      + rewrite Z.mod_pow2_bits_low by lia. rewrite Z.shiftr_spec by lia.
        rewrite bool_decide_eq_true_2 by lia. simpl. f_equal. lia.
      + rewrite Z.mod_pow2_bits_high by lia. rewrite bool_decide_eq_false_2 by lia. done. }
  rewrite !Hb by lia.
  assert (H0 : Z.testbit (l `mod` 256) n = bool_decide (0 ≤ n < 8) && Z.testbit l n).
  { change 256 with (2 ^ 8). destruct (decide (n < 8)).
    - rewrite Z.mod_pow2_bits_low by lia. by rewrite bool_decide_eq_true_2 by lia.
    - rewrite Z.mod_pow2_bits_high by lia. by rewrite bool_decide_eq_false_2 by lia. }
  rewrite H0.
  destruct (decide (n < 32)).
  - destruct (decide (n < 8)); [|destruct (decide (n < 16)); [|destruct (decide (n < 24))]].
    all: repeat first [rewrite bool_decide_eq_true_2 by lia | rewrite bool_decide_eq_false_2 by lia].
    all: simpl; rewrite ?orb_false_r; done.
  - repeat rewrite bool_decide_eq_false_2 by lia. simpl.
    symmetry. destruct (decide (l = 0)) as [->|]; [apply Z.bits_0|].
    apply Z.bits_above_log2; [lia|].
    apply Z.log2_lt_pow2; [lia|]. apply Z.lt_le_trans with (2 ^ 32); [lia|].
    apply Z.pow_le_mono_r; lia.
Qed.

Lemma unmarshal_at_wire `{Extension E} (hdr payload rest : list Z) (e : E)
    (off sz : nat) (typ : Z) :
  off = length hdr → sz = length payload →
  unmarshal_at (hdr ++ payload ++ rest) e off sz typ
  = if decide (typ ≠ ExtensionType e) then
      Ok (hdr ++ payload ++ rest, e, Some (msgpError (ExtensionTypeError typ (ExtensionType e))))
    else Ok (rest, (UnmarshalBinary e payload).1, (UnmarshalBinary e payload).2).
Proof.
  intros -> ->. unfold unmarshal_at. case_decide; [done|].
  unfold slice_from, slice. rewrite !length_app.
  rewrite !decide_True by lia. rewrite !exec_bind_Ok.
  rewrite drop_app_length, length_app. rewrite decide_False by lia.
  replace (length hdr + length payload - length hdr)%nat with (length payload) by lia.
  rewrite take_app_length.
  rewrite app_assoc, drop_app_length'; [|rewrite length_app; lia].
  by destruct (UnmarshalBinary e payload).
Qed.

(** [ReadExtensionBytes] on a well-formed object followed by [rest]. *)
Lemma ReadExtensionBytes_wire `{Extension E} (hdr payload rest : list Z) (typ : Z) (e : E) :
  wire_ext hdr typ (length payload) →
  ReadExtensionBytes (hdr ++ payload ++ rest) e
  = if decide (is_empty_ext8 hdr typ ∨ int8_of_byte typ = ExtensionType e) then
      Ok (rest, (UnmarshalBinary e payload).1, (UnmarshalBinary e payload).2)
    else
      Ok (hdr ++ payload ++ rest, e,
          Some (msgpError (ExtensionTypeError (int8_of_byte typ) (ExtensionType e)))).
Proof.
  intros Hwire.
  assert (Hresult : ∀ off sz, off = length hdr → sz = length payload →
    ¬ is_empty_ext8 hdr typ →
    unmarshal_at (hdr ++ payload ++ rest) e off sz (int8_of_byte typ)
    = if decide (is_empty_ext8 hdr typ ∨ int8_of_byte typ = ExtensionType e) then
        Ok (rest, (UnmarshalBinary e payload).1, (UnmarshalBinary e payload).2)
      else
        Ok (hdr ++ payload ++ rest, e,
            Some (msgpError (ExtensionTypeError (int8_of_byte typ) (ExtensionType e))))).
  { intros off sz Hoff Hsz Hne. rewrite unmarshal_at_wire by done.
    destruct (decide (int8_of_byte typ = ExtensionType e)) as [Heq|Hneq].
    - rewrite decide_False by (by intros ?). rewrite decide_True; [done | by right].
    - rewrite decide_True by done. rewrite decide_False; [done | by intros [?|?]]. }
  inversion Hwire as [prefix typ' l Hp Hhdr| typ' l Hl Hhdr | typ' l Hl Hhdr | typ' l Hl Hhdr];
    subst typ' l hdr;
    try (change (2 ^ 8) with 256 in Hl);
    try (change (2 ^ 16) with 65536 in Hl);
    try (change (2 ^ 32) with 4294967296 in Hl).
  - assert (Hlen : (1 ≤ length payload)%nat) by (apply fixext_prefix_Some in Hp; lia).
    assert (Hne : ¬ is_empty_ext8 [prefix; typ] typ) by (by intros ?).
    specialize (Hresult 2%nat (length payload) eq_refl eq_refl Hne).
    unfold ReadExtensionBytes. rewrite decide_False by (rewrite !length_app; simpl; lia).
    apply fixext_prefix_Some in Hp as Hcases.
    destruct Hcases as [Hc|[Hc|[Hc|[Hc|Hc]]]]; rewrite Hc in Hp; simplify_eq/=;
      rewrite Hc in Hresult; exact Hresult.
  - unfold ReadExtensionBytes. rewrite decide_False by (simpl; lia). simpl.
    assert (Hu : Z.to_nat (uint8 (Z.of_nat (length payload))) = length payload).
    { unfold uint8. rewrite Z.mod_small by lia. lia. }
    rewrite Hu.
    destruct (decide (length payload = 0%nat)) as [Hz|Hz].
    + apply nil_length_inv in Hz as Hnil. subst payload. simpl.
      rewrite decide_True by (left; reflexivity).
      rewrite take_0, drop_0. by destruct (UnmarshalBinary e []).
    + apply (Hresult 3%nat (length payload) eq_refl eq_refl).
      unfold is_empty_ext8. intros Heq. simplify_eq. lia.
  - assert (Hne : ¬ is_empty_ext8 (mext16 :: be16 (Z.of_nat (length payload)) ++ [typ]) typ)
      by (by intros ?).
    specialize (Hresult 4%nat (length payload) eq_refl eq_refl Hne).
    unfold ReadExtensionBytes. rewrite decide_False by (simpl; lia). simpl.
    rewrite be16_decode by lia. rewrite Nat2Z.id. exact Hresult.
  - assert (Hne : ¬ is_empty_ext8 (mext32 :: be32 (Z.of_nat (length payload)) ++ [typ]) typ)
      by (by intros ?).
    specialize (Hresult 6%nat (length payload) eq_refl eq_refl Hne).
    unfold ReadExtensionBytes. rewrite decide_False by (simpl; lia). simpl.
    rewrite be32_decode by lia. rewrite Nat2Z.id. exact Hresult.
Qed.

(** A type mismatch is reported, and [UnmarshalBinary] is not called, on
    every well-formed object but the empty ext8 one. *)
Lemma ReadExtensionBytes_type_mismatch `{Extension E} (hdr payload rest : list Z)
    (typ : Z) (e : E) :
  wire_ext hdr typ (length payload) →
  ¬ is_empty_ext8 hdr typ →
  int8_of_byte typ ≠ ExtensionType e →
  ReadExtensionBytes (hdr ++ payload ++ rest) e
  = Ok (hdr ++ payload ++ rest, e,
        Some (msgpError (ExtensionTypeError (int8_of_byte typ) (ExtensionType e)))).
Proof.
  intros Hwire Hne Htyp. rewrite (ReadExtensionBytes_wire _ _ _ typ) by done.
  rewrite decide_False; [done | by intros [?|?]].
Qed.

(** *** [Reader.ReadExtension] on a well-formed object *)

Lemma read_payload_wire `{Extension E} (hdr payload rest : list Z) (e : E)
    (total off : nat) :
  total = (length hdr + length payload)%nat → off = length hdr →
  read_payload (mkReader (hdr ++ payload ++ rest)) e total off
  = match UnmarshalBinary e payload with
    | (e', Some err) => Ok (mkReader (hdr ++ payload ++ rest), e', Some err)
    | (e', None) => Ok (mkReader rest, e', None)
    end.
Proof.
  intros -> ->. unfold read_payload, Peek, Skip. simpl r.
  rewrite !length_app. rewrite !decide_True by lia.
  rewrite app_assoc, take_app_length'; [|rewrite length_app; lia].
  unfold slice_from. rewrite length_app, decide_True by lia. rewrite exec_bind_Ok.
  rewrite drop_app_length.
  destruct (UnmarshalBinary e payload) as [e' [err|]]; [done|].
  rewrite drop_app_length'; [done | rewrite length_app; lia].
Qed.

Lemma ReadExtension_fixext `{Extension E} (l : nat) (prefix b1 : Z) (tl : list Z) (e : E) :
  fixext_prefix l = Some prefix →
  ReadExtension (mkReader (prefix :: b1 :: tl)) e
  = read_fixext (mkReader (prefix :: b1 :: tl)) e [prefix; b1] (2 + l).
Proof.
  intros Hp. apply fixext_prefix_Some in Hp as Hcases.
  destruct Hcases as [Hc|[Hc|[Hc|[Hc|Hc]]]]; subst l; simplify_eq/=; reflexivity.
Qed.

Lemma ReadExtension_ext8 `{Extension E} (b1 : Z) (tl : list Z) (e : E) :
  ReadExtension (mkReader (mext8 :: b1 :: tl)) e
  = read_ext (mkReader (mext8 :: b1 :: tl)) e 3 (λ p, b1 ← index p 1; Ok (uint8 b1)).
Proof. reflexivity. Qed.

Lemma ReadExtension_ext16 `{Extension E} (b1 : Z) (tl : list Z) (e : E) :
  ReadExtension (mkReader (mext16 :: b1 :: tl)) e
  = read_ext (mkReader (mext16 :: b1 :: tl)) e 4 (λ p, Uint16 p 1).
Proof. reflexivity. Qed.

Lemma ReadExtension_ext32 `{Extension E} (b1 : Z) (tl : list Z) (e : E) :
  ReadExtension (mkReader (mext32 :: b1 :: tl)) e
  = read_ext (mkReader (mext32 :: b1 :: tl)) e 6 (λ p, Uint32 p 1).
Proof. reflexivity. Qed.

Lemma read_ext_wire `{Extension E} (hdr payload rest : list Z) (typ : Z) (e : E)
    (n : nat) (size : list Z → exec Z) :
  n = length hdr → hdr !! (n - 1)%nat = Some typ →
  size hdr = Ok (Z.of_nat (length payload)) →
  read_ext (mkReader (hdr ++ payload ++ rest)) e n size
  = if decide (int8_of_byte typ = ExtensionType e) then
      match UnmarshalBinary e payload with
      | (e', Some err) => Ok (mkReader (hdr ++ payload ++ rest), e', Some err)
      | (e', None) => Ok (mkReader rest, e', None)
      end
    else
      Ok (mkReader (hdr ++ payload ++ rest), e,
          Some (msgpError (ExtensionTypeError (int8_of_byte typ) (ExtensionType e)))).
Proof.
  intros -> Htyp Hsize. unfold read_ext, Peek. cbn [r].
  rewrite length_app, decide_True by lia. rewrite take_app_length.
  unfold index. rewrite Htyp, exec_bind_Ok.
  destruct (decide (int8_of_byte typ = ExtensionType e)) as [Heq|Hne].
  - rewrite decide_False by (by intros ?). rewrite Hsize, exec_bind_Ok.
    rewrite Nat2Z.id. apply read_payload_wire; lia.
  - by rewrite decide_True.
Qed.

Lemma Uint16_be16 (x : Z) (v : Z) (tl : list Z) :
  0 ≤ v < 65536 → Uint16 (x :: be16 v ++ tl) 1 = Ok v.
Proof.
  intros Hv. unfold Uint16, slice_from, be16.
  rewrite decide_True by (simpl; lia).
  cbn -[Z.shiftl Z.shiftr Z.lor Z.modulo]. by rewrite be16_decode.
Qed.

Lemma Uint32_be32 (x : Z) (v : Z) (tl : list Z) :
  0 ≤ v < 4294967296 → Uint32 (x :: be32 v ++ tl) 1 = Ok v.
Proof.
  intros Hv. unfold Uint32, slice_from, be32.
  rewrite decide_True by (simpl; lia).
  cbn -[Z.shiftl Z.shiftr Z.lor Z.modulo]. by rewrite be32_decode.
Qed.

Lemma ReadExtension_wire `{Extension E} (hdr payload rest : list Z) (typ : Z) (e : E) :
  wire_ext hdr typ (length payload) →
  ReadExtension (mkReader (hdr ++ payload ++ rest)) e
  = if decide (int8_of_byte typ = ExtensionType e) then
      match UnmarshalBinary e payload with
      | (e', Some err) => Ok (mkReader (hdr ++ payload ++ rest), e', Some err)
      | (e', None) => Ok (mkReader rest, e', None)
      end
    else
      Ok (mkReader (hdr ++ payload ++ rest), e,
          Some (msgpError (ExtensionTypeError (int8_of_byte typ) (ExtensionType e)))).
Proof.
  intros Hwire.
  inversion Hwire as [prefix typ' l Hp Hhdr| typ' l Hl Hhdr | typ' l Hl Hhdr | typ' l Hl Hhdr];
    subst typ' l hdr;
    try (change (2 ^ 8) with 256 in Hl);
    try (change (2 ^ 16) with 65536 in Hl);
    try (change (2 ^ 32) with 4294967296 in Hl).
  - change ([prefix; typ] ++ payload ++ rest) with (prefix :: typ :: payload ++ rest).
    rewrite (ReadExtension_fixext (length payload)) by done.
    unfold read_fixext. cbn [index lookup list_lookup]. rewrite exec_bind_Ok.
    destruct (decide (int8_of_byte typ = ExtensionType e)) as [Heq|Hne].
    + rewrite decide_False by (by intros ?).
      apply (read_payload_wire [prefix; typ] payload rest e); reflexivity.
    + by rewrite decide_True.
  - rewrite <- (read_ext_wire [mext8; Z.of_nat (length payload); typ] payload rest typ e 3
                  (λ p, b1 ← index p 1; Ok (uint8 b1))); [reflexivity..|].
    cbn [index lookup list_lookup]. rewrite exec_bind_Ok.
    unfold uint8. by rewrite Z.mod_small by lia.
  - rewrite <- (read_ext_wire (mext16 :: be16 (Z.of_nat (length payload)) ++ [typ])
                  payload rest typ e 4 (λ p, Uint16 p 1)); [reflexivity..|].
    apply Uint16_be16. lia.
  - rewrite <- (read_ext_wire (mext32 :: be32 (Z.of_nat (length payload)) ++ [typ])
                  payload rest typ e 6 (λ p, Uint32 p 1)); [reflexivity..|].
    apply Uint32_be32. lia.
Qed.

(** [Reader.ReadExtension] reports a type mismatch on every well-formed
    object, the empty ext8 one included, and leaves the reader and the
    extension as they were. *)
Lemma ReadExtension_type_mismatch `{Extension E} (hdr payload rest : list Z)
    (typ : Z) (e : E) :
  wire_ext hdr typ (length payload) →
  int8_of_byte typ ≠ ExtensionType e →
  ReadExtension (mkReader (hdr ++ payload ++ rest)) e
  = Ok (mkReader (hdr ++ payload ++ rest), e,
        Some (msgpError (ExtensionTypeError (int8_of_byte typ) (ExtensionType e)))).
Proof.
  intros Hwire Htyp. rewrite (ReadExtension_wire _ _ _ typ) by done.
  by rewrite decide_False.
Qed.

(** *** Encoding, then decoding *)

Lemma appended_header_wire (l : nat) (typ : Z) :
  fixext_prefix l = None → Z.of_nat l < 2 ^ 32 →
  wire_ext (appended_header l typ) typ l.
Proof.
  intros Hp Hl. change (2 ^ 32) with 4294967296 in Hl.
  unfold appended_header. rewrite Hp.
  destruct l as [|l']; [by apply (wire_ext8 typ 0)|].
  set (l := S l') in *. simpl app. unfold ext_header.
  destruct (decide (Z.of_nat l < 255)); [|destruct (decide (Z.of_nat l < 65535))].
  - unfold uint8. rewrite Z.mod_small by lia.
    apply wire_ext8. change (2 ^ 8) with 256. lia.
  - unfold uint16. rewrite (Z.mod_small (Z.of_nat l) 65536) by lia.
    apply (wire_ext16 typ l). change (2 ^ 16) with 65536. lia.
  - unfold uint32. rewrite (Z.mod_small (Z.of_nat l) 4294967296) by lia.
    apply (wire_ext32 typ l). change (2 ^ 32) with 4294967296. lia.
Qed.

(** The round trip holds for every payload shorter than [2^32] bytes whose
    length is not 1, 2, 4, 8 or 16. *)
Lemma AppendExtension_ReadExtensionBytes_round_trip (t : Z) (data rest d0 : list Z) :
  is_int8 t →
  (length data ≠ 1 ∧ length data ≠ 2 ∧ length data ≠ 4
   ∧ length data ≠ 8 ∧ length data ≠ 16)%nat →
  Z.of_nat (length data) < 2 ^ 32 →
  ∃ out,
    AppendExtension [] (mkRawExtension t data) = Ok (out, None)
    ∧ ReadExtensionBytes (out ++ rest) (mkRawExtension t d0)
      = Ok (rest, mkRawExtension t data, None)
    ∧ ReadExtension (mkReader (out ++ rest)) (mkRawExtension t d0)
      = Ok (mkReader rest, mkRawExtension t data, None).
Proof.
  intros Ht Hp%fixext_prefix_None Hl.
  eexists. split; [apply AppendExtension_RawExtension|].
  pose proof (appended_header_wire (length data) (byte_of_int8 t) Hp Hl) as Hwire.
  rewrite app_nil_l, <- app_assoc. split.
  - rewrite (ReadExtensionBytes_wire _ _ _ (byte_of_int8 t)) by done.
    rewrite decide_True; [done|]. right. by rewrite int8_of_byte_of_int8.
  - rewrite (ReadExtension_wire _ _ _ (byte_of_int8 t)) by done.
    rewrite decide_True; [done|]. by rewrite int8_of_byte_of_int8.
Qed.

(** It fails for the payloads of length 1, 2, 4, 8 and 16: the decoders
    read the fixext object and take the first bytes of the second header
    for the payload. *)
Lemma AppendExtension_ReadExtensionBytes_fixext (t : Z) (data rest d0 : list Z)
    (prefix : Z) :
  is_int8 t →
  fixext_prefix (length data) = Some prefix →
  let second := ext_header (length data) (byte_of_int8 t) ++ data in
  AppendExtension [] (mkRawExtension t data)
  = Ok ([prefix; byte_of_int8 t] ++ second, None)
  ∧ ReadExtensionBytes (([prefix; byte_of_int8 t] ++ second) ++ rest) (mkRawExtension t d0)
    = Ok (drop (length data) second ++ rest,
          mkRawExtension t (take (length data) second), None)
  ∧ head (take (length data) second) = Some mext8.
Proof.
  intros Ht Hp second.
  assert (Hl : (1 ≤ length data)%nat ∧ Z.of_nat (length data) < 255)
    by (apply fixext_prefix_Some in Hp; lia).
  assert (Hsecond : (length data ≤ length second)%nat)
    by (unfold second; rewrite length_app; lia).
  split; [|split].
  - rewrite AppendExtension_RawExtension. unfold appended_header. rewrite Hp.
    destruct (length data) eqn:Hd; [lia|]. by rewrite app_nil_l, <- !app_assoc.
  - rewrite <- (take_drop (length data) second) at 1.
    rewrite <- !app_assoc.
    rewrite (ReadExtensionBytes_wire _ _ _ (byte_of_int8 t)).
    + rewrite decide_True; [done|]. right. by rewrite int8_of_byte_of_int8.
    + rewrite length_take, Nat.min_l by done. by apply wire_fixext.
  - unfold second, ext_header. rewrite decide_True by lia.
    destruct (length data); [lia|done].
Qed.

(** C1.  A one-byte payload [0x41] of type 10: [AppendExtension] writes
    the fixext1 header and then, the first switch having no return, an ext8
    header as well; [ReadExtensionBytes] reads the fixext1 object and gives
    back the byte [0xc7] of the second header as payload, leaving three
    bytes unread. *)
Theorem AppendExtension_fixext1_round_trip_fails :
  AppendExtension [] (mkRawExtension 10 [0x41])
  = Ok ([mfixext1; 10; mext8; 1; 10; 0x41], None)
  ∧ ReadExtensionBytes [mfixext1; 10; mext8; 1; 10; 0x41] (mkRawExtension 10 [])
    = Ok ([1; 10; 0x41], mkRawExtension 10 [mext8], None).
Proof. split; reflexivity. Qed.

(** C2.  [AppendExtension] emits two headers for a payload of length 1
    (fixext1, then ext8), and for a payload of length 255, which fits the
    length byte of ext8, it emits ext16: the tests [l < math.MaxUint8] and
    [l < math.MaxUint16] are strict. *)
Theorem AppendExtension_header_choice :
  AppendExtension [] (mkRawExtension 10 [0x41])
  = Ok ([mfixext1; 10; mext8; 1; 10; 0x41], None)
  ∧ AppendExtension [] (mkRawExtension 10 (replicate 255 7))
    = Ok ([mext16; 0; 255; 10] ++ replicate 255 7, None).
Proof. split; vm_compute; reflexivity. Qed.

(** *** [Writer.WriteExtension] on the modelled writer *)

(** The third scenario of the specification, on a writer with an empty
    buffer of sixteen bytes. *)
Example WriteExtension_hello :
  (mw ← WriteExtension (mkWriter [] (replicate 16 0) 0)
          (mkRawExtension 10 [0x68; 0x65; 0x6c; 0x6c; 0x6f]);
   Ok (written mw.1, mw.2))
  = Ok ([mext8; 5; 10; 0x68; 0x65; 0x6c; 0x6c; 0x6f], None).
Proof. reflexivity. Qed.

(** The fixext cases append the header to [mw.buf] instead of writing it at
    the offset [require] returns: the header lands behind the buffer and
    the payload alone is written. *)
Example WriteExtension_fixext1 :
  (mw ← WriteExtension (mkWriter [] (replicate 16 0) 0) (mkRawExtension 10 [0x41]);
   Ok (written mw.1, drop 16 (buf mw.1)))
  = Ok ([0x41], [mfixext1; 10]).
Proof. reflexivity. Qed.

(** The ext16 case writes the type at [mw.buf[3]] whatever the offset: with
    two bytes pending in the buffer the type byte lands on the first length
    byte and the place of the type keeps what the buffer held. *)
Example WriteExtension_ext16_pending :
  (mw ← WriteExtension (mkWriter [] (1 :: 2 :: replicate 510 0) 2)
          (mkRawExtension 10 (replicate 255 7));
   Ok (take 7 (written mw.1)))
  = Ok [1; 2; mext16; 10; 255; 0; 7].
Proof. vm_compute. reflexivity. Qed.

(** * Further properties of the extension codec *)

(** ** Every outcome of the decoders *)

(* the call ended with an error of the package, before [UnmarshalBinary] *)
Ltac package_error :=
  unfold bytes_outcome; left; eexists; split; [|reflexivity]; reflexivity.
(* the same for the reader, with any error *)
Ltac reader_error := unfold reader_outcome; left; eexists; reflexivity.

Lemma index_Ok (b : list Z) (i : nat) :
  (i < length b)%nat → ∃ x, index b i = Ok x.
Proof.
  intros Hi. destruct (lookup_lt_is_Some_2 b i Hi) as [x Hx].
  exists x. unfold index. by rewrite Hx.
Qed.

Lemma slice_from_Ok (b : list Z) (lo : nat) :
  (lo ≤ length b)%nat → slice_from b lo = Ok (drop lo b).
Proof. intros. unfold slice_from. by rewrite decide_True. Qed.

Lemma slice_Ok (b : list Z) (lo hi : nat) :
  (lo ≤ hi ≤ length b)%nat → slice b lo hi = Ok (take (hi - lo) (drop lo b)).
Proof. intros. unfold slice. by rewrite decide_True. Qed.

Lemma unmarshal_at_outcome `{Extension E} (b : list Z) (e : E) (off sz : nat) (typ : Z) :
  (2 ≤ off ≤ 6)%nat → (off ≤ length b)%nat →
  bytes_outcome b e (unmarshal_at b e off sz typ).
Proof.
  intros Hoff Hlen. unfold unmarshal_at.
  case_decide; [package_error|].
  rewrite (slice_from_Ok b off) by done. rewrite exec_bind_Ok.
  rewrite length_drop.
  case_decide; [package_error|].
  rewrite (slice_from_Ok b (off + sz)), exec_bind_Ok by lia.
  rewrite slice_Ok, exec_bind_Ok by lia.
  right. exists (take off b), (take (off + sz - off) (drop off b)), (drop (off + sz) b).
  split; [|split].
  - replace (off + sz - off)%nat with sz by lia.
    rewrite <- drop_drop. by rewrite !take_drop.
  - rewrite length_take. lia.
  - by destruct (UnmarshalBinary e _).
Qed.

(** X1.  Whatever the input and the extension, [ReadExtensionBytes] does
    not panic, and its call ends in one of two ways: it returns [b] whole
    and a resumable error of the package without having called
    [UnmarshalBinary], or it calls [UnmarshalBinary] on a payload that
    follows a header of two to six bytes at the start of [b] and returns the
    bytes behind that payload with the result of the call. *)
Theorem ReadExtensionBytes_outcome `{Extension E} (b : list Z) (e : E) :
  bytes_outcome b e (ReadExtensionBytes b e).
Proof.
  unfold ReadExtensionBytes.
  case_decide as Hl; [package_error|].
  destruct b as [|lead [|b1 [|b2 b]]]; simpl in Hl; try lia.
  cbn [index lookup list_lookup]. rewrite !exec_bind_Ok.
  repeat case_decide; try (apply unmarshal_at_outcome; simpl; lia).
  - (* ext8 of length zero *)
    right. exists [lead; b1; b2], [], b. split; [done|]. split; [simpl; lia|].
    cbn [slice_from slice length]. simpl. rewrite take_0, drop_0.
    by destruct (UnmarshalBinary e []).
  - package_error.
  - destruct b as [|b3 b]; [simpl in *; lia|].
    cbn -[Z.shiftl Z.lor Z.to_nat unmarshal_at].
    apply unmarshal_at_outcome; simpl; lia.
  - package_error.
  - destruct b as [|b3 [|b4 [|b5 b]]]; try (simpl in *; lia).
    cbn -[Z.shiftl Z.lor Z.to_nat unmarshal_at].
    apply unmarshal_at_outcome; simpl; lia.
  - package_error.
Qed.

Lemma read_payload_outcome `{Extension E} (m : Reader) (e : E) (total off : nat) :
  (2 ≤ off ≤ 6)%nat → (off ≤ total)%nat →
  reader_outcome m e (read_payload m e total off).
Proof.
  intros Hoff Htotal. unfold read_payload, Peek, Skip.
  case_decide as Hl; [|reader_error].
  rewrite slice_from_Ok, exec_bind_Ok by (rewrite length_take; lia).
  right. exists (take off (r m)), (drop off (take total (r m))), (drop total (r m)).
  split; [|split].
  - rewrite <- (take_drop total (r m)) at 1.
    rewrite <- (take_drop off (take total (r m))) at 1.
    rewrite take_take, Nat.min_l by done. by rewrite <- app_assoc.
  - rewrite length_take. lia.
  - by destruct (UnmarshalBinary e _) as [e' [err|]].
Qed.

Lemma read_ext_outcome `{Extension E} (m : Reader) (e : E) (n : nat)
    (size : list Z → exec Z) :
  (3 ≤ n ≤ 6)%nat →
  (∀ p, length p = n → ∃ v, size p = Ok v) →
  reader_outcome m e (read_ext m e n size).
Proof.
  intros Hn Hsize. unfold read_ext, Peek.
  case_decide as Hl; [|reader_error].
  assert (Hp : length (take n (r m)) = n) by (rewrite length_take; lia).
  destruct (index_Ok (take n (r m)) (n - 1)) as [t Ht]; [lia|].
  rewrite Ht, exec_bind_Ok.
  case_decide; [reader_error|].
  destruct (Hsize _ Hp) as [v Hv]. rewrite Hv, exec_bind_Ok.
  apply read_payload_outcome; lia.
Qed.

(** X2.  Whatever the input and the extension, [Reader.ReadExtension]
    does not panic; the reader advances only when [UnmarshalBinary] was
    called and returned no error, and then to the byte behind the payload it
    was given; on every error the reader stays where it was, and an error
    raised before the call of [UnmarshalBinary] leaves the extension as it
    was. *)
Theorem ReadExtension_outcome `{Extension E} (m : Reader) (e : E) :
  reader_outcome m e (ReadExtension m e).
Proof.
  unfold ReadExtension. unfold Peek at 1.
  case_decide as Hl; [|reader_error].
  destruct m as [[|lead [|b1 b]]]; simpl in Hl; try lia.
  cbn [r take index lookup list_lookup]. rewrite exec_bind_Ok.
  assert (Hfix : ∀ total, (2 ≤ total)%nat →
    reader_outcome (mkReader (lead :: b1 :: b)) e
      (read_fixext (mkReader (lead :: b1 :: b)) e [lead; b1] total)).
  { intros total Htotal. unfold read_fixext.
    cbn [index lookup list_lookup]. rewrite exec_bind_Ok.
    case_decide; [reader_error|]. apply read_payload_outcome; lia. }
  repeat case_decide; try (apply Hfix; lia).
  - apply read_ext_outcome; [lia|]. intros p Hp.
    destruct p as [|p0 [|p1 [|p2 [|]]]]; simplify_eq/=. by eexists.
  - apply read_ext_outcome; [lia|]. intros p Hp.
    destruct p as [|p0 [|p1 [|p2 [|p3 [|]]]]]; simplify_eq/=. by eexists.
  - apply read_ext_outcome; [lia|]. intros p Hp.
    destruct p as [|p0 [|p1 [|p2 [|p3 [|p4 [|p5 [|]]]]]]]; simplify_eq/=. by eexists.
  - reader_error.
Qed.

(** ** Well-formed and truncated input *)

(** X3.  Both decoders read a well-formed object whose type is the one of
    the extension in the same way: [UnmarshalBinary] gets exactly the
    payload, and what is left is exactly what follows the object. *)
Theorem decoders_read_well_formed `{Extension E} (hdr payload rest : list Z)
    (typ : Z) (e : E) :
  wire_ext hdr typ (length payload) →
  int8_of_byte typ = ExtensionType e →
  ReadExtensionBytes (hdr ++ payload ++ rest) e
  = Ok (rest, (UnmarshalBinary e payload).1, (UnmarshalBinary e payload).2)
  ∧ ReadExtension (mkReader (hdr ++ payload ++ rest)) e
    = match UnmarshalBinary e payload with
      | (e', Some err) => Ok (mkReader (hdr ++ payload ++ rest), e', Some err)
      | (e', None) => Ok (mkReader rest, e', None)
      end.
Proof.
  intros Hwire Htyp. split.
  - rewrite (ReadExtensionBytes_wire _ _ _ typ) by done.
    rewrite decide_True; [done | by right].
  - rewrite (ReadExtension_wire _ _ _ typ) by done. by rewrite decide_True.
Qed.

Lemma decoders_read_well_formed_witness :
  wire_ext [mext8; 5; 10] 10 (length [0x68; 0x65; 0x6c; 0x6c; 0x6f])
  ∧ int8_of_byte 10 = ExtensionType (mkRawExtension 10 [])
  ∧ ReadExtensionBytes ([mext8; 5; 10] ++ [0x68; 0x65; 0x6c; 0x6c; 0x6f] ++ [0xc0])
      (mkRawExtension 10 [])
    = Ok ([0xc0], mkRawExtension 10 [0x68; 0x65; 0x6c; 0x6c; 0x6f], None)
  ∧ ReadExtension (mkReader ([mext8; 5; 10] ++ [0x68; 0x65; 0x6c; 0x6c; 0x6f] ++ [0xc0]))
      (mkRawExtension 10 [])
    = Ok (mkReader [0xc0], mkRawExtension 10 [0x68; 0x65; 0x6c; 0x6c; 0x6f], None).
Proof.
  assert (Hwire : wire_ext [mext8; 5; 10] 10 (length [0x68; 0x65; 0x6c; 0x6c; 0x6f])).
  { apply (wire_ext8 10 5). reflexivity. }
  split; [exact Hwire|]. split; [reflexivity|].
  exact (decoders_read_well_formed [mext8; 5; 10] [0x68; 0x65; 0x6c; 0x6c; 0x6f] [0xc0]
           10 (mkRawExtension 10 []) Hwire eq_refl).
Defined.

(** X4.  On a well-formed object whose type is not the one of the
    extension, [Reader.ReadExtension] always returns [ExtensionTypeError]
    with the wire type and the wanted type, and [ReadExtensionBytes] does so
    on every object but the empty ext8 one; the input, the reader and the
    extension are left as they were. *)
Theorem type_mismatch_is_reported `{Extension E} (hdr payload rest : list Z)
    (typ : Z) (e : E) :
  wire_ext hdr typ (length payload) →
  int8_of_byte typ ≠ ExtensionType e →
  ReadExtension (mkReader (hdr ++ payload ++ rest)) e
  = Ok (mkReader (hdr ++ payload ++ rest), e,
        Some (msgpError (ExtensionTypeError (int8_of_byte typ) (ExtensionType e))))
  ∧ (¬ is_empty_ext8 hdr typ →
     ReadExtensionBytes (hdr ++ payload ++ rest) e
     = Ok (hdr ++ payload ++ rest, e,
           Some (msgpError (ExtensionTypeError (int8_of_byte typ) (ExtensionType e))))).
Proof.
  intros Hwire Htyp. split.
  - by apply ReadExtension_type_mismatch.
  - intros Hne. by apply ReadExtensionBytes_type_mismatch.
Qed.

Lemma type_mismatch_is_reported_witness :
  wire_ext [mfixext2; 10] 10 (length [1; 2])
  ∧ int8_of_byte 10 ≠ ExtensionType (mkRawExtension 11 [7])
  ∧ ReadExtension (mkReader ([mfixext2; 10] ++ [1; 2] ++ [0xc0])) (mkRawExtension 11 [7])
    = Ok (mkReader ([mfixext2; 10] ++ [1; 2] ++ [0xc0]), mkRawExtension 11 [7],
          Some (msgpError (ExtensionTypeError (int8_of_byte 10)
                             (ExtensionType (mkRawExtension 11 [7])))))
  ∧ (¬ is_empty_ext8 [mfixext2; 10] 10 →
     ReadExtensionBytes ([mfixext2; 10] ++ [1; 2] ++ [0xc0]) (mkRawExtension 11 [7])
     = Ok ([mfixext2; 10] ++ [1; 2] ++ [0xc0], mkRawExtension 11 [7],
           Some (msgpError (ExtensionTypeError (int8_of_byte 10)
                              (ExtensionType (mkRawExtension 11 [7])))))).
Proof.
  assert (Hwire : wire_ext [mfixext2; 10] 10 (length [1; 2])).
  { by apply (wire_fixext mfixext2 10 2). }
  assert (Htyp : int8_of_byte 10 ≠ ExtensionType (mkRawExtension 11 [7])).
  { vm_compute. discriminate. }
  split; [exact Hwire|]. split; [exact Htyp|].
  exact (type_mismatch_is_reported [mfixext2; 10] [1; 2] [0xc0] 10
           (mkRawExtension 11 [7]) Hwire Htyp).
Defined.

Lemma unmarshal_at_short `{Extension E} (b : list Z) (e : E) (off sz : nat) (typ : Z) :
  typ = ExtensionType e → (off ≤ length b)%nat → (length b < off + sz)%nat →
  unmarshal_at b e off sz typ = Ok (b, e, Some (msgpError ErrShortBytes)).
Proof.
  intros Htyp Hoff Hshort. unfold unmarshal_at.
  rewrite decide_False by (by intros ?).
  rewrite (slice_from_Ok b off), exec_bind_Ok by done.
  rewrite length_drop. by rewrite decide_True by lia.
Qed.

(** X5.  Every proper prefix of a well-formed object whose type is the
    one of the extension, the empty input included, makes
    [ReadExtensionBytes] return [ErrShortBytes], the input and the extension
    as they were. *)
Theorem ReadExtensionBytes_truncated `{Extension E} (hdr payload : list Z)
    (typ : Z) (e : E) (k : nat) :
  wire_ext hdr typ (length payload) →
  int8_of_byte typ = ExtensionType e →
  (k < length (hdr ++ payload))%nat →
  ReadExtensionBytes (take k (hdr ++ payload)) e
  = Ok (take k (hdr ++ payload), e, Some (msgpError ErrShortBytes)).
Proof.
  intros Hwire Htyp Hk.
  destruct (decide (k < 3)%nat) as [Hsmall|Hbig].
  { unfold ReadExtensionBytes. rewrite decide_True; [done|].
    rewrite length_take. lia. }
  rewrite length_app in Hk.
  inversion Hwire as [prefix typ' l Hp Hhdr| typ' l Hl Hhdr | typ' l Hl Hhdr | typ' l Hl Hhdr];
    subst typ' l hdr;
    try (change (2 ^ 8) with 256 in Hl);
    try (change (2 ^ 16) with 65536 in Hl);
    try (change (2 ^ 32) with 4294967296 in Hl);
    simpl in Hk.
  - (* fixext: the header is whole, the payload is cut *)
    destruct k as [|[|k]]; try lia.
    change (take (S (S k)) ([prefix; typ] ++ payload))
      with (prefix :: typ :: take k payload).
    assert (Hshort : ∀ sz, sz = length payload →
      unmarshal_at (prefix :: typ :: take k payload) e 2 sz (int8_of_byte typ)
      = Ok (prefix :: typ :: take k payload, e, Some (msgpError ErrShortBytes))).
    { intros sz ->. apply unmarshal_at_short; [done|simpl; lia|].
      simpl. rewrite length_take. lia. }
    unfold ReadExtensionBytes.
    rewrite decide_False by (simpl; rewrite length_take; lia).
    apply fixext_prefix_Some in Hp as Hcases.
    destruct Hcases as [Hc|[Hc|[Hc|[Hc|Hc]]]]; rewrite Hc in Hp; simplify_eq/=;
      by apply Hshort.
  - destruct k as [|[|[|k]]]; try lia.
    change (take (S (S (S k))) ([mext8; Z.of_nat (length payload); typ] ++ payload))
      with (mext8 :: Z.of_nat (length payload) :: typ :: take k payload).
    unfold ReadExtensionBytes.
    rewrite decide_False by (simpl; lia). simpl.
    assert (Hu : Z.to_nat (uint8 (Z.of_nat (length payload))) = length payload).
    { unfold uint8. rewrite Z.mod_small by lia. lia. }
    rewrite Hu. rewrite decide_False by lia.
    apply unmarshal_at_short; [done|simpl; lia|].
    simpl. rewrite length_take. lia.
  - destruct k as [|[|[|k]]]; try lia.
    destruct k as [|k]; [reflexivity|].
    change (take (S (S (S (S k))))
              ((mext16 :: be16 (Z.of_nat (length payload)) ++ [typ]) ++ payload))
      with (mext16 :: be16 (Z.of_nat (length payload)) ++ typ :: take k payload).
    unfold ReadExtensionBytes.
    rewrite decide_False by (simpl; lia). simpl.
    rewrite be16_decode by lia. rewrite Nat2Z.id.
    apply unmarshal_at_short; [done|simpl; lia|].
    simpl. rewrite length_take. lia.
  - destruct k as [|[|[|k]]]; try lia.
    destruct k as [|[|[|k]]]; [reflexivity..|].
    change (take (S (S (S (S (S (S k))))))
              ((mext32 :: be32 (Z.of_nat (length payload)) ++ [typ]) ++ payload))
      with (mext32 :: be32 (Z.of_nat (length payload)) ++ typ :: take k payload).
    unfold ReadExtensionBytes.
    rewrite decide_False by (simpl; lia). simpl.
    rewrite be32_decode by lia. rewrite Nat2Z.id.
    apply unmarshal_at_short; [done|simpl; lia|].
    simpl. rewrite length_take. lia.
Qed.

Lemma ReadExtensionBytes_truncated_witness :
  wire_ext [mext8; 5; 10] 10 (length [0x68; 0x65; 0x6c; 0x6c; 0x6f])
  ∧ int8_of_byte 10 = ExtensionType (mkRawExtension 10 [])
  ∧ (6 < length ([mext8; 5; 10] ++ [0x68; 0x65; 0x6c; 0x6c; 0x6f])%Z)%nat
  ∧ ReadExtensionBytes (take 6 ([mext8; 5; 10] ++ [0x68; 0x65; 0x6c; 0x6c; 0x6f]))
      (mkRawExtension 10 [])
    = Ok (take 6 ([mext8; 5; 10] ++ [0x68; 0x65; 0x6c; 0x6c; 0x6f]),
          mkRawExtension 10 [], Some (msgpError ErrShortBytes)).
Proof.
  assert (Hwire : wire_ext [mext8; 5; 10] 10 (length [0x68; 0x65; 0x6c; 0x6c; 0x6f])).
  { apply (wire_ext8 10 5). reflexivity. }
  assert (Hk : (6 < length ([mext8; 5; 10] ++ [0x68; 0x65; 0x6c; 0x6c; 0x6f])%Z)%nat).
  { simpl. lia. }
  split; [exact Hwire|]. split; [reflexivity|]. split; [exact Hk|].
  exact (ReadExtensionBytes_truncated [mext8; 5; 10] [0x68; 0x65; 0x6c; 0x6c; 0x6f]
           10 (mkRawExtension 10 []) 6 Hwire eq_refl Hk).
Defined.

(** ** Encoding, peeking, registering *)

(** X6.  [AppendExtension] on a [RawExtension] never panics and never
    fails; it leaves the bytes of [b] in place and appends a header that
    does not depend on [b], of three to six bytes, and then the payload. *)
Theorem AppendExtension_appends (t : Z) (data : list Z) :
  ∃ hdr, (3 ≤ length hdr ≤ ExtensionPrefixSize)%nat
    ∧ ∀ b, AppendExtension b (mkRawExtension t data) = Ok (b ++ hdr ++ data, None).
Proof.
  exists (appended_header (length data) (byte_of_int8 t)). split.
  - unfold appended_header, ExtensionPrefixSize.
    destruct (length data) as [|l] eqn:Hl; [simpl; lia|]. rewrite <- Hl.
    assert (3 ≤ length (ext_header (length data) (byte_of_int8 t)) ≤ 6)%nat as Hh.
    { unfold ext_header. repeat case_decide; simpl; lia. }
    destruct (fixext_prefix (length data)) eqn:Hp; [|simpl; lia].
    apply fixext_prefix_Some in Hp.
    assert (Hsmall : Z.of_nat (length data) < 255) by lia.
    unfold ext_header. rewrite decide_True by done. simpl. lia.
  - intros b. apply AppendExtension_RawExtension.
Qed.

(** X7.  Round trip of one object behind any buffer: for a type id in the
    range of int8 and a payload whose length is below 2^32 and none of 1,
    2, 4, 8, 16, what [AppendExtension] appends to [b] is read back by both
    decoders as the same payload, whatever follows it being left over. *)
Theorem AppendExtension_round_trip (t : Z) (b data rest d0 : list Z) :
  is_int8 t →
  (length data ≠ 1 ∧ length data ≠ 2 ∧ length data ≠ 4
   ∧ length data ≠ 8 ∧ length data ≠ 16)%nat →
  Z.of_nat (length data) < 2 ^ 32 →
  ∃ out,
    AppendExtension b (mkRawExtension t data) = Ok (b ++ out, None)
    ∧ ReadExtensionBytes (out ++ rest) (mkRawExtension t d0)
      = Ok (rest, mkRawExtension t data, None)
    ∧ ReadExtension (mkReader (out ++ rest)) (mkRawExtension t d0)
      = Ok (mkReader rest, mkRawExtension t data, None).
Proof.
  intros Ht Hlen Hl.
  destruct (AppendExtension_ReadExtensionBytes_round_trip t data rest d0 Ht Hlen Hl)
    as (out & Happ & Hbytes & Hread).
  exists out. split; [|done].
  rewrite AppendExtension_RawExtension in Happ |- *.
  rewrite app_nil_l in Happ. by simplify_eq.
Qed.

Lemma AppendExtension_round_trip_witness :
  is_int8 10
  ∧ ∃ out,
      AppendExtension [0xc0] (mkRawExtension 10 [0x68; 0x65; 0x6c; 0x6c; 0x6f])
      = Ok ([0xc0] ++ out, None)
      ∧ ReadExtensionBytes (out ++ [0xc3]) (mkRawExtension 10 [])
        = Ok ([0xc3], mkRawExtension 10 [0x68; 0x65; 0x6c; 0x6c; 0x6f], None)
      ∧ ReadExtension (mkReader (out ++ [0xc3])) (mkRawExtension 10 [])
        = Ok (mkReader [0xc3], mkRawExtension 10 [0x68; 0x65; 0x6c; 0x6c; 0x6f], None).
Proof.
  assert (Ht : is_int8 10) by (unfold is_int8; lia).
  split; [exact Ht|].
  apply (AppendExtension_round_trip 10 [0xc0] [0x68; 0x65; 0x6c; 0x6c; 0x6f] [0xc3] [] Ht).
  - simpl. lia.
  - simpl. lia.
Defined.

(** X8.  On the header of any well-formed object, followed by anything,
    [peekExtension] and [Reader.peekExtensionType] both return the type id
    of the header and no error. *)
Theorem peek_well_formed (hdr tail : list Z) (typ : Z) (l : nat) :
  wire_ext hdr typ l →
  peekExtension (hdr ++ tail) = Ok (int8_of_byte typ, None)
  ∧ peekExtensionType (mkReader (hdr ++ tail)) = Ok (int8_of_byte typ, None).
Proof.
  intros Hwire.
  inversion Hwire as [prefix typ' l' Hp Hhdr| typ' l' Hl Hhdr | typ' l' Hl Hhdr
                     | typ' l' Hl Hhdr]; subst typ' l' hdr.
  - apply fixext_prefix_Some in Hp as Hcases.
    destruct Hcases as [Hc|[Hc|[Hc|[Hc|Hc]]]]; rewrite Hc in Hp; simplify_eq/=;
      by split.
  - by split.
  - by split.
  - by split.
Qed.

Lemma peek_well_formed_witness :
  wire_ext (mext16 :: be16 300 ++ [200]) 200 300%nat
  ∧ peekExtension ((mext16 :: be16 300 ++ [200]) ++ [1; 2; 3]) = Ok (-56, None)
  ∧ peekExtensionType (mkReader ((mext16 :: be16 300 ++ [200]) ++ [1; 2; 3]))
    = Ok (-56, None).
Proof.
  assert (Hwire : wire_ext (mext16 :: be16 300 ++ [200]) 200 300%nat).
  { apply (wire_ext16 200 300%nat). reflexivity. }
  split; [exact Hwire|].
  exact (peek_well_formed (mext16 :: be16 300 ++ [200]) [1; 2; 3] 200 300%nat Hwire).
Defined.

Lemma peek_type_at_lookup (m : Reader) (k : nat) :
  peek_type_at m (S k)
  = match r m !! k with
    | Some t => Ok (int8_of_byte t, None)
    | None => Ok (0, Some (short_read m))
    end.
Proof.
  unfold peek_type_at, Peek.
  destruct (decide (S k ≤ length (r m))%nat) as [Hle|Hle].
  - destruct (lookup_lt_is_Some_2 (r m) k) as [t Ht]; [lia|]. rewrite Ht.
    unfold index. replace (S k - 1)%nat with k by lia.
    rewrite lookup_take_lt by lia. by rewrite Ht.
  - by rewrite lookup_ge_None_2 by lia.
Qed.

(** X9.  [Reader.peekExtensionType] never panics, and its result is
    decided by the unread input alone: with fewer than two bytes it returns
    the error of the peek; for a lead byte that opens no extension it
    returns [TypeError] with method kind Extension and the kind of the lead
    byte; otherwise it returns the type byte of the header as int8 (the
    byte at index 1 for fixext, 2 for ext8, 3 for ext16, 5 for ext32), or
    the error of the peek when the input ends before that byte. *)
Theorem peekExtensionType_outcome (m : Reader) :
  peekExtensionType m
  = match r m with
    | lead :: _ :: _ =>
        match type_index lead with
        | Some k =>
            match r m !! k with
            | Some t => Ok (int8_of_byte t, None)
            | None => Ok (0, Some (short_read m))
            end
        | None => Ok (0, Some (msgpError (TypeError KExtension (getType lead))))
        end
    | _ => Ok (0, Some (short_read m))
    end.
Proof.
  destruct m as [b]. destruct b as [|lead [|t1 b]]; [done|done|].
  unfold peekExtensionType, type_index, Peek. cbn [r].
  rewrite decide_True by (simpl; lia).
  change (index (take 2 (lead :: t1 :: b)) 0) with (Ok lead : exec Z).
  rewrite exec_bind_Ok.
  destruct (decide (lead = mfixext1 ∨ lead = mfixext2 ∨ lead = mfixext4
                    ∨ lead = mfixext8 ∨ lead = mfixext16)); [done|].
  destruct (decide (lead = mext8)); [exact (peek_type_at_lookup (mkReader (lead :: t1 :: b)) 2)|].
  destruct (decide (lead = mext16)); [exact (peek_type_at_lookup (mkReader (lead :: t1 :: b)) 3)|].
  destruct (decide (lead = mext32)); [exact (peek_type_at_lookup (mkReader (lead :: t1 :: b)) 5)|].
  done.
Qed.

(** X10.  A successful [RegisterExtension] was given an id other than 3,
    4 and 5 that had no factory; it adds that one binding and changes no
    other, so a registry without the reserved ids stays without them; and
    registering the same id again panics. *)
Theorem RegisterExtension_registers {F : Type} (reg reg' : gmap Z F) (typ : Z) (f g : F) :
  RegisterExtension reg typ f = Ok reg' →
  (typ ≠ 3 ∧ typ ≠ 4 ∧ typ ≠ 5)
  ∧ reg !! typ = None
  ∧ reg' !! typ = Some f
  ∧ (∀ k, k ≠ typ → reg' !! k = reg !! k)
  ∧ (reg !! 3 = None ∧ reg !! 4 = None ∧ reg !! 5 = None →
     reg' !! 3 = None ∧ reg' !! 4 = None ∧ reg' !! 5 = None)
  ∧ RegisterExtension reg' typ g = Panic.
Proof.
  unfold RegisterExtension. intros Hreg.
  destruct (decide (typ = 3 ∨ typ = 4 ∨ typ = 5)) as [|Hres]; [done|].
  destruct (reg !! typ) eqn:Hfree; [done|]. simplify_eq.
  split; [lia|]. split; [done|]. split; [by rewrite lookup_insert_eq|].
  split; [intros k Hk; by rewrite lookup_insert_ne|].
  split.
  - intros (H3 & H4 & H5). rewrite !lookup_insert_ne by lia. done.
  - by rewrite lookup_insert_eq.
Qed.

Lemma RegisterExtension_registers_witness :
  RegisterExtension (∅ : gmap Z nat) 10 7%nat = Ok {[ 10 := 7%nat ]}
  ∧ ({[ 10 := 7%nat ]} : gmap Z nat) !! 10 = Some 7%nat
  ∧ RegisterExtension ({[ 10 := 7%nat ]} : gmap Z nat) 10 8%nat = Panic.
Proof.
  assert (Hreg : RegisterExtension (∅ : gmap Z nat) 10 7%nat = Ok {[ 10 := 7%nat ]})
    by reflexivity.
  split; [exact Hreg|].
  pose proof (RegisterExtension_registers ∅ {[ 10 := 7%nat ]} 10 7%nat 8%nat Hreg)
    as (_ & _ & Hnew & _ & _ & Hagain).
  split; [exact Hnew | exact Hagain].
Defined.

End extension_proofs.

(** * Properties of the ingester and of the resolver *)

Module parse_proofs.
Import ast parse examples.

(** ** Induction on element trees *)

Section Elem_nested_ind.
Variable P : gen.Elem → Prop.
Hypothesis HPtr : ∀ v, P v → P (gen.Ptr v).
Hypothesis HSlice : ∀ els, P els → P (gen.Slice els).
Hypothesis HArray : ∀ size els, P els → P (gen.Array size els).
Hypothesis HMap : ∀ v, P v → P (gen.Map v).
Hypothesis HStruct : ∀ nm fs asTuple,
  Forall (λ sf, P (gen.FieldElem sf)) fs → P (gen.Struct nm fs asTuple).
Hypothesis HBase : ∀ b, P (gen.BaseE b).

Fixpoint Elem_nested_ind (g : gen.Elem) : P g :=
  match g with
  | gen.Ptr v => HPtr v (Elem_nested_ind v)
  | gen.Slice els => HSlice els (Elem_nested_ind els)
  | gen.Array size els => HArray size els (Elem_nested_ind els)
  | gen.Map v => HMap v (Elem_nested_ind v)
  | gen.Struct nm fs asTuple =>
      HStruct nm fs asTuple
        ((fix all (fs : list gen.StructField)
            : Forall (λ sf, P (gen.FieldElem sf)) fs :=
            match fs with
            | [] => List.Forall_nil _
            | sf :: fs =>
                List.Forall_cons _ sf fs
                  (match sf return P (gen.FieldElem sf) with
                   | gen.mkStructField _ _ fe => Elem_nested_ind fe
                   end)
                  (all fs)
            end) fs)
  | gen.BaseE b => HBase b
  end.
End Elem_nested_ind.

(** ** Pass 1 *)

(** C4.  [type Hash [32]byte] is an array, not a byte slice, and pass 1
    records it as [Bytes]: the case for array types of [GetTypeSpecs] tests
    the element type only, where [parseExpr] also asks for a slice
    ([arr.Len == nil]) and makes an [Array] of the same type expression. *)
Theorem GetTypeSpecs_byte_array_is_Bytes :
  (GetTypeSpecs (globalIdents init) Hash_unit).1 !! "Hash" = Some gen.Bytes
  ∧ parseExpr (Type__ Hash_spec) = Some (gen.Array "32" (gen.BaseE (gen.base gen.Byte))).
Proof. split; vm_compute; reflexivity. Qed.

(** What pass 1 records for one declaration, shape by shape. *)
Lemma record_ident_recorded (idents : gmap string gen.Base) (ts : TypeSpec) :
  record_ident idents ts
  = match recorded_kind (Type__ ts) with
    | Some k => <[Name ts := k]> idents
    | None => idents
    end.
Proof.
  unfold record_ident, recorded_kind.
  destruct (Type__ ts) as [| | | len elt | | | | |]; try done.
  destruct elt; try done. by case_decide.
Qed.

Lemma record_ident_lookup (idents : gmap string gen.Base) (ts : TypeSpec) (k : gen.Base) :
  recorded_kind (Type__ ts) = Some k → record_ident idents ts !! Name ts = Some k.
Proof. intros Hk. rewrite record_ident_recorded, Hk. apply lookup_insert_eq. Qed.

Lemma record_ident_lookup_ne (idents : gmap string gen.Base) (ts : TypeSpec) (n : string) :
  Name ts ≠ n → record_ident idents ts !! n = idents !! n.
Proof.
  intros Hn. rewrite record_ident_recorded.
  destruct (recorded_kind (Type__ ts)); [by apply lookup_insert_ne | done].
Qed.

(** [GetTypeSpecs] returns the type specs of the file and records them
    one after the other. *)
Lemma GetTypeSpecs_fold (idents : gmap string gen.Base) (f : File) :
  GetTypeSpecs idents f = (foldl record_ident idents (type_specs f), type_specs f).
Proof.
  unfold GetTypeSpecs, type_specs.
  set (inner := λ (acc : gmap string gen.Base * list TypeSpec) (s : Spec),
         match s with
         | SpecType ts => (record_ident acc.1 ts, acc.2 ++ [ts])
         | SpecOther => acc
         end).
  assert (Hinner : ∀ specs acc,
    foldl inner acc specs
    = (foldl record_ident acc.1 (spec_types specs), acc.2 ++ spec_types specs)).
  { induction specs as [|sp specs IH]; intros [G out]; simpl.
    - by rewrite app_nil_r.
    - rewrite IH. destruct sp as [ts|]; simpl; [|done].
      by rewrite <- app_assoc. }
  assert (Houter : ∀ decls acc,
    foldl (λ acc decl,
             match decl with
             | GenDecl specs => foldl inner acc specs
             | OtherDecl => acc
             end) acc decls
    = (foldl record_ident acc.1 (flat_map decl_types decls),
       acc.2 ++ flat_map decl_types decls)).
  { induction decls as [|decl decls IH]; intros [G out]; simpl.
    - by rewrite app_nil_r.
    - rewrite IH. destruct decl as [specs|]; simpl; [|done].
      rewrite Hinner. simpl. by rewrite foldl_app, <- app_assoc. }
  by rewrite Houter.
Qed.

(** In a unit that declares each name once, pass 1 maps the name of every
    declaration it records to [recorded_kind]: records, pointers and maps
    to [IDENT], an alias of an identifier to what [pullIdent] makes of it,
    and every array or slice type to [IDENT], or to [Bytes] when its element
    type is [byte]. *)
Lemma GetTypeSpecs_records (idents : gmap string gen.Base) (f : File)
    (ts : TypeSpec) (k : gen.Base) :
  NoDup (Name <$> type_specs f) →
  ts ∈ type_specs f →
  recorded_kind (Type__ ts) = Some k →
  (GetTypeSpecs idents f).1 !! Name ts = Some k.
Proof.
  rewrite GetTypeSpecs_fold. simpl. generalize (type_specs f). intros specs.
  revert idents. induction specs as [|ts' specs IH]; intros idents Hnd Hin Hk.
  - by apply elem_of_nil in Hin.
  - simpl. apply NoDup_cons in Hnd as [Hfresh Hnd].
    apply elem_of_cons in Hin as [->|Hin]; [|by apply IH].
    clear IH. assert (Hkeep : ∀ l G, Name ts' ∉ Name <$> l →
      foldl record_ident G l !! Name ts' = G !! Name ts').
    { induction l as [|x l IHl]; intros G Hl; [done|]. simpl.
      apply not_elem_of_cons in Hl as [Hx Hl].
      rewrite IHl by done. apply record_ident_lookup_ne. congruence. }
    rewrite Hkeep by done. by apply record_ident_lookup.
Qed.

(** ** Pointers *)



(** ** Wire keys *)

(** C6.  The fields of an inline declaration of several names are not
    read for their tag: [A, B int] tagged [msg:"-"] is ingested as two
    fields with wire keys ["A"] and ["B"] and [GenElem] builds a record of
    them, where the claim omits them; the branch for one name does omit the
    same fields with the same tag when each is declared on its own, and no
    record is built. *)
Lemma parseFieldList_inline_names_keep_dash :
  msg_body (Tag (mkField ["A"; "B"] (Ident "int") (Some [("msg", "-")]))) = "-"
  ∧ parseFieldList AB_fields
    = [gen.mkStructField "A" "A" (gen.BaseE (gen.base gen.Int));
       gen.mkStructField "B" "B" (gen.BaseE (gen.base gen.Int))]
  ∧ (GenElem ∅ (mkTypeSpec "T" (StructType AB_fields))).2
    = Some (gen.Ptr (gen.Struct "T"
              [gen.mkStructField "A" "A" (gen.BaseE (gen.base gen.Int));
               gen.mkStructField "B" "B" (gen.BaseE (gen.base gen.Int))] false))
  ∧ parseFieldList AB_separate_fields = []
  ∧ (GenElem ∅ (mkTypeSpec "T" (StructType AB_separate_fields))).2 = None.
Proof. repeat split; vm_compute; reflexivity. Qed.

Lemma tagged_plain (typ : Expr) (tag : option (list (string * string))) (name : string) :
  Split (msg_body tag) ","%char = [msg_body tag] →
  tagged parseExpr typ tag name
  = if decide (msg_body tag = "-") then []
    else match parseExpr typ with
         | None => []
         | Some e =>
             [gen.mkStructField name
                (if decide (msg_body tag = "") then name else msg_body tag) e]
         end.
Proof.
  intros Hsplit. unfold tagged.
  destruct tag as [tag|]; simpl in *; [rewrite Hsplit|]; reflexivity.
Qed.

Lemma parseField_plain (f : Field) :
  plain_field f → parseField parseExpr f = wire_field f.
Proof.
  destruct f as [names typ tag]. intros [Hnames Hsplit]. simpl in *.
  unfold wire_field, parseField. cbn [Names Type_ Tag].
  destruct names as [|name [|name' names]]; simpl in Hnames; [| |lia].
  - destruct (decide (embedded typ = "")) as [Hemb|Hemb].
    + rewrite decide_True; [reflexivity | by split].
    + rewrite decide_False; [by apply tagged_plain | by intros [_ ?]].
  - rewrite decide_False; [by apply tagged_plain | by intros [? _]].
Qed.

(** Every field list is ingested field by field. *)
Lemma parseFieldList_fields (fl : list Field) :
  parseFieldList fl = flat_map (parseField parseExpr) fl.
Proof.
  unfold parseFieldList. induction fl as [|f fl IH]; [done|]. simpl. by rewrite IH.
Qed.

(** A record whose fields are each declared on their own with a plain
    [msg] tag or none follows the tag rules: the wire key is the field name
    without a tag, [name] with [msg:"name"], and the field is omitted with
    [msg:"-"]; [GenElem] makes one [Struct] of these fields and the struct
    template writes a map header of as many entries. *)
Theorem parseFieldList_wire_keys (nm : string) (fl : list Field) (processed : gset string) :
  Forall plain_field fl →
  parseFieldList fl = flat_map wire_field fl
  ∧ (GenElem processed (mkTypeSpec nm (StructType fl))).2
    = match flat_map wire_field fl with
      | [] => None
      | fields => Some (gen.Ptr (gen.Struct nm fields false))
      end
  ∧ head (gen.StructTempl nm (flat_map wire_field fl) false)
    = Some (gen.WriteMapHeader (length (flat_map wire_field fl))).
Proof.
  intros Hplain.
  assert (Hfl : parseFieldList fl = flat_map wire_field fl).
  { unfold parseFieldList. induction Hplain as [|f fl Hf _ IH]; [done|].
    simpl. by rewrite IH, parseField_plain. }
  split; [done|]. split; [|done].
  unfold GenElem. simpl. rewrite Hfl. by destruct (flat_map wire_field fl).
Qed.

Lemma parseFieldList_wire_keys_witness :
  Forall plain_field Foo_fields
  ∧ parseFieldList Foo_fields
    = [gen.mkStructField "Bar" "b" (gen.BaseE (gen.base gen.Int));
       gen.mkStructField "Keep" "Keep" (gen.BaseE (gen.base gen.Bool))]
  ∧ (GenElem ∅ (mkTypeSpec "Foo" (StructType Foo_fields))).2
    = Some (gen.Ptr (gen.Struct "Foo"
              [gen.mkStructField "Bar" "b" (gen.BaseE (gen.base gen.Int));
               gen.mkStructField "Keep" "Keep" (gen.BaseE (gen.base gen.Bool))]
              false))
  ∧ head (gen.StructTempl "Foo"
            [gen.mkStructField "Bar" "b" (gen.BaseE (gen.base gen.Int));
             gen.mkStructField "Keep" "Keep" (gen.BaseE (gen.base gen.Bool))]
            false)
    = Some (gen.WriteMapHeader 2).
Proof.
  assert (Hplain : Forall plain_field Foo_fields).
  { repeat constructor; simpl; lia. }
  split; [exact Hplain|].
  exact (parseFieldList_wire_keys "Foo" Foo_fields ∅ Hplain).
Defined.

(** The example record through the whole of [GetElems]. *)
Example GetElems_Foo :
  (GetElems init [Foo_unit]).1.2
  = [gen.Ptr (gen.Struct "Foo"
       [gen.mkStructField "Bar" "b" (gen.BaseE (gen.base gen.Int));
        gen.mkStructField "Keep" "Keep" (gen.BaseE (gen.base gen.Bool))] false)]
  ∧ (GetElems init [Foo_unit]).2 = [].
Proof. split; vm_compute; reflexivity. Qed.


(** ** Resolution *)

(** The example of the specification: the field of [Thermo] becomes
    [Base{Float64, Ident="Celsius", Convert=true}] and nothing is reported. *)
Example GetElems_Thermo :
  (GetElems init [Thermo_unit]).1.2
  = [gen.Ptr (gen.Struct "Thermo"
       [gen.mkStructField "T" "T"
          (gen.BaseE (gen.mkBaseElem gen.Float64 "Celsius" true "" ""))] false)]
  ∧ (GetElems init [Thermo_unit]).2 = [].
Proof. split; vm_compute; reflexivity. Qed.

(** C5.  The same alias as the element type of an array field:
    [findUnresolved] has no case for [Array], so after resolution the
    element of [T [3]Celsius] is still [Base{IDENT, Ident="Celsius"}]
    without [Convert], although pass 1 recorded [Celsius] as [Float64] and
    [Celsius] is not a processed type; the identifier is not reported
    either. *)
Theorem findUnresolved_skips_array_elements :
  globalIdents (GetElems init [Thermo_array_unit]).1.1 !! "Celsius" = Some gen.Float64
  ∧ elements (globalProcessed (GetElems init [Thermo_array_unit]).1.1) = ["Thermo"]
  ∧ (GetElems init [Thermo_array_unit]).1.2
    = [gen.Ptr (gen.Struct "Thermo"
         [gen.mkStructField "T" "T"
            (gen.Array "3" (gen.BaseE (gen.ident "Celsius")))] false)]
  ∧ (GetElems init [Thermo_array_unit]).2 = [].
Proof. repeat split; vm_compute; reflexivity. Qed.

(** The rewriting rule itself, at a base element. *)
Lemma findUnresolved_alias (idents : gmap string gen.Base) (processed : gset string)
    (b : gen.BaseElem) (tp : gen.Base) :
  gen.Value b = gen.IDENT →
  idents !! gen.Ident b = Some tp → tp ≠ gen.IDENT →
  gen.Ident b ∉ processed →
  findUnresolved idents processed (gen.BaseE b)
  = (gen.BaseE (gen.mkBaseElem tp (gen.Ident b) true "" ""), []).
Proof.
  intros Hv Hid Htp Hnp. simpl.
  rewrite decide_True by done. rewrite Hid.
  rewrite decide_False by done. by rewrite decide_True.
Qed.

(** C8 (as stated, refuted).  [B] has a field of the record type [A],
    which is processed: after resolution the field is still
    [Base{IDENT, Ident="A"}] and is not marked [Convert]. *)
Lemma GetElems_keeps_processed_ident :
  elements (globalProcessed (GetElems init [AB_unit]).1.1) = ["A"; "B"]
  ∧ (GetElems init [AB_unit]).1.2
    = [gen.Ptr (gen.Struct "A"
         [gen.mkStructField "X" "X" (gen.BaseE (gen.base gen.Int))] false);
       gen.Ptr (gen.Struct "B"
         [gen.mkStructField "F" "F"
            (gen.BaseE (gen.mkBaseElem gen.IDENT "A" false "" ""))] false)].
Proof. split; vm_compute; reflexivity. Qed.

Section resolution.
Variable idents : gmap string gen.Base.
Variable processed : gset string.

Lemma findUnresolved_Struct (nm : string) (fs : list gen.StructField) (asTuple : bool) :
  findUnresolved idents processed (gen.Struct nm fs asTuple)
  = (gen.Struct nm (resolve_fields idents processed fs).1 asTuple,
     (if decide (idents !! nm = None ∧ nm ≠ "") then [nm] else [])
     ++ (resolve_fields idents processed fs).2).
Proof.
  change (findUnresolved idents processed (gen.Struct nm fs asTuple))
    with (let '(fields, unr) := resolve_fields idents processed fs in
          (gen.Struct nm fields asTuple,
           (if decide (idents !! nm = None ∧ nm ≠ "") then [nm] else []) ++ unr)).
  by destruct (resolve_fields idents processed fs).
Qed.

Lemma resolve_fields_cons (name tag : string) (fe : gen.Elem) (fs : list gen.StructField) :
  resolve_fields idents processed (gen.mkStructField name tag fe :: fs)
  = (gen.mkStructField name tag (findUnresolved idents processed fe).1
       :: (resolve_fields idents processed fs).1,
     (findUnresolved idents processed fe).2 ++ (resolve_fields idents processed fs).2).
Proof.
  simpl. destruct (findUnresolved idents processed fe).
  by destruct (resolve_fields idents processed fs).
Qed.

Lemma walked_bases_Struct (nm : string) (fs : list gen.StructField) (asTuple : bool) :
  walked_bases (gen.Struct nm fs asTuple)
  = flat_map (λ sf, walked_bases (gen.FieldElem sf)) fs.
Proof.
  simpl. induction fs as [|[name tag fe] fs IH]; [done|]. simpl. by rewrite IH.
Qed.

Lemma findUnresolved_remaining (g : gen.Elem) :
  remaining_ok idents processed (findUnresolved idents processed g).1
    (findUnresolved idents processed g).2 g.
Proof.
  induction g as [v IH|els IH|size els _|v IH|nm fs asTuple IH|b0]
    using Elem_nested_ind.
  - simpl. by destruct (findUnresolved idents processed v).
  - simpl. by destruct (findUnresolved idents processed els).
  - intros b Hb. by apply elem_of_nil in Hb.
  - simpl. by destruct (findUnresolved idents processed v).
  - rewrite findUnresolved_Struct. simpl fst. simpl snd.
    intros b Hb Hv. rewrite walked_bases_Struct in Hb |- *.
    assert (Hfs :
      b ∈ flat_map (λ sf, walked_bases (gen.FieldElem sf)) fs
      ∧ (gen.Ident b ∈ processed
         ∨ gen.Ident b ∈ (resolve_fields idents processed fs).2)
      ∧ (gen.Ident b ∉ processed →
         idents !! gen.Ident b = None ∨ idents !! gen.Ident b = Some gen.IDENT)).
    { clear nm asTuple. induction IH as [|[name tag fe] fs Hfe _ IHfs].
      - by apply elem_of_nil in Hb.
      - rewrite resolve_fields_cons in Hb |- *. simpl in Hb |- *.
        apply elem_of_app in Hb as [Hb|Hb].
        + destruct (Hfe b Hb Hv) as (Hin & Hrep & Hid).
          split; [apply elem_of_app; by left|]. split; [|done].
          destruct Hrep as [?|?]; [by left|right]. apply elem_of_app. by left.
        + destruct (IHfs Hb) as (Hin & Hrep & Hid).
          split; [apply elem_of_app; by right|]. split; [|done].
          destruct Hrep as [?|?]; [by left|right]. apply elem_of_app. by right. }
    destruct Hfs as (Hin & Hrep & Hid). split; [done|]. split; [|done].
    destruct Hrep as [?|?]; [by left|right]. apply elem_of_app. by right.
  - intros b Hb Hv. simpl in Hb |- *.
    destruct (decide (gen.Value b0 = gen.IDENT)) as [Hv0|Hv0];
      [|apply list_elem_of_singleton in Hb; congruence].
    destruct (idents !! gen.Ident b0) as [tp|] eqn:Hid.
    + destruct (decide (gen.Ident b0 ∈ processed)) as [Hp|Hp].
      { apply list_elem_of_singleton in Hb as ->.
        split; [by apply list_elem_of_singleton|]. split; [by left|done]. }
      destruct (decide (tp ≠ gen.IDENT)) as [Htp|Htp].
      { apply list_elem_of_singleton in Hb as ->. simpl in Hv. done. }
      apply list_elem_of_singleton in Hb as ->.
      split; [by apply list_elem_of_singleton|].
      split; [right; by apply list_elem_of_singleton|].
      intros _. right. rewrite Hid. f_equal. by destruct (decide (tp = gen.IDENT)).
    + apply list_elem_of_singleton in Hb as ->.
      split; [by apply list_elem_of_singleton|].
      split; [right; by apply list_elem_of_singleton|]. intros _. by left.
Qed.
End resolution.

(** Elements of an array are out of the resolver's reach. *)
Lemma findUnresolved_Array (idents : gmap string gen.Base) (processed : gset string)
    (size : string) (els : gen.Elem) :
  findUnresolved idents processed (gen.Array size els) = (gen.Array size els, []).
Proof. reflexivity. Qed.

(** The last loop of [GetElems]. *)
Lemma resolve_loop (idents : gmap string gen.Base) (processed : gset string)
    (out : list gen.Elem) (acc : list gen.Elem * list string) :
  foldl (λ acc o,
           let '(o, unr) := findUnresolved idents processed o in
           (acc.1 ++ [o], acc.2 ++ unr)) acc out
  = (acc.1 ++ ((λ o, (findUnresolved idents processed o).1) <$> out),
     acc.2 ++ flat_map (λ o, (findUnresolved idents processed o).2) out).
Proof.
  revert acc. induction out as [|o out IH]; intros [trees printed]; simpl.
  - by rewrite !app_nil_r.
  - rewrite IH. destruct (findUnresolved idents processed o) as [o' unr]. simpl.
    by rewrite <- !app_assoc.
Qed.

(** C8 (amended).  After [GetElems] resolved a compilation unit, a base
    element with value [IDENT] that the resolver reaches in one of the trees
    (through [Ptr], [Slice], [Map] and the fields of a [Struct]) has its
    identifier in [processedTable] or in the printed report of unresolved
    identifiers; and an identifier outside [processedTable] is not one that
    [identTable] maps to a base kind other than [IDENT]. *)
Theorem GetElems_remaining_idents (g : Globals) (files : list File)
    (tree : gen.Elem) (b : gen.BaseElem) :
  tree ∈ (GetElems g files).1.2 →
  b ∈ walked_bases tree →
  gen.Value b = gen.IDENT →
  (gen.Ident b ∈ globalProcessed (GetElems g files).1.1
   ∨ gen.Ident b ∈ (GetElems g files).2)
  ∧ (gen.Ident b ∉ globalProcessed (GetElems g files).1.1 →
     globalIdents (GetElems g files).1.1 !! gen.Ident b = None
     ∨ globalIdents (GetElems g files).1.1 !! gen.Ident b = Some gen.IDENT).
Proof.
  unfold GetElems.
  destruct (foldl _ (globalIdents g, []) files) as [idents specs].
  destruct specs as [|spec specs]; [by intros ?%elem_of_nil|].
  destruct (foldl _ (globalProcessed g, []) (spec :: specs)) as [processed out].
  rewrite resolve_loop. simpl.
  intros Htree Hb Hv.
  apply list_elem_of_fmap in Htree as (o & -> & Ho).
  destruct (findUnresolved_remaining idents processed o b Hb Hv) as (_ & Hrep & Hid).
  split; [|done].
  destruct Hrep as [?|Hunr]; [by left|right].
  apply list_elem_of_In, in_flat_map. exists o.
  split; by apply list_elem_of_In.
Qed.

Lemma GetElems_remaining_idents_witness :
  B_tree ∈ (GetElems init [AB_unit]).1.2
  ∧ gen.ident "A" ∈ walked_bases B_tree
  ∧ gen.Value (gen.ident "A") = gen.IDENT
  ∧ (gen.Ident (gen.ident "A") ∈ globalProcessed (GetElems init [AB_unit]).1.1
     ∨ gen.Ident (gen.ident "A") ∈ (GetElems init [AB_unit]).2)
  ∧ (gen.Ident (gen.ident "A") ∉ globalProcessed (GetElems init [AB_unit]).1.1 →
     globalIdents (GetElems init [AB_unit]).1.1 !! gen.Ident (gen.ident "A") = None
     ∨ globalIdents (GetElems init [AB_unit]).1.1 !! gen.Ident (gen.ident "A")
       = Some gen.IDENT).
Proof.
  assert (Htree : B_tree ∈ (GetElems init [AB_unit]).1.2).
  { vm_compute. apply list_elem_of_further, list_elem_of_here. }
  assert (Hb : gen.ident "A" ∈ walked_bases B_tree).
  { vm_compute. apply list_elem_of_here. }
  split; [exact Htree|]. split; [exact Hb|]. split; [reflexivity|].
  exact (GetElems_remaining_idents init [AB_unit] B_tree (gen.ident "A")
           Htree Hb eq_refl).
Defined.

(** * Further properties of [parse] *)

(** ** Pass 1 as a whole *)

Lemma record_ident_keeps (idents : gmap string gen.Base) (ts : TypeSpec) (n : string) :
  is_Some (idents !! n) → is_Some (record_ident idents ts !! n).
Proof.
  intros Hn. destruct (decide (Name ts = n)) as [<-|Hne].
  - rewrite record_ident_recorded. destruct (recorded_kind (Type__ ts)); [|done].
    rewrite lookup_insert_eq. by eexists.
  - by rewrite record_ident_lookup_ne.
Qed.

Lemma record_fold_keeps (specs : list TypeSpec) (idents : gmap string gen.Base)
    (n : string) :
  is_Some (idents !! n) → is_Some (foldl record_ident idents specs !! n).
Proof.
  revert idents. induction specs as [|ts specs IH]; intros idents Hn; [done|].
  simpl. by apply IH, record_ident_keeps.
Qed.

Lemma record_fold_other (specs : list TypeSpec) (idents : gmap string gen.Base)
    (n : string) :
  n ∉ Name <$> specs → foldl record_ident idents specs !! n = idents !! n.
Proof.
  revert idents. induction specs as [|ts specs IH]; intros idents Hn; [done|].
  simpl. apply not_elem_of_cons in Hn as [Hne Hn].
  rewrite IH by done. apply record_ident_lookup_ne. congruence.
Qed.

(** X11.  [GetTypeSpecs] returns the type specs of the file in the order
    of their declaration; it never removes an identifier from the table and
    leaves the identifiers the file does not declare as they were; and in a
    file that declares each name once, the name of every declaration it
    records is mapped to the kind of that declaration. *)
Theorem GetTypeSpecs_table (idents : gmap string gen.Base) (f : File) :
  (GetTypeSpecs idents f).2 = type_specs f
  ∧ (∀ n, is_Some (idents !! n) → is_Some ((GetTypeSpecs idents f).1 !! n))
  ∧ (∀ n, n ∉ Name <$> type_specs f → (GetTypeSpecs idents f).1 !! n = idents !! n)
  ∧ (NoDup (Name <$> type_specs f) →
     ∀ ts k, ts ∈ type_specs f → recorded_kind (Type__ ts) = Some k →
       (GetTypeSpecs idents f).1 !! Name ts = Some k).
Proof.
  split; [by rewrite GetTypeSpecs_fold|].
  split; [intros n Hn; rewrite GetTypeSpecs_fold; by apply record_fold_keeps|].
  split; [intros n Hn; rewrite GetTypeSpecs_fold; by apply record_fold_other|].
  intros Hnd ts k Hts Hk. by apply GetTypeSpecs_records.
Qed.

(** ** Field lists *)

(** X12.  An inline declaration of several names ([A, B T]) gives one
    field per name, with the name as wire key and the element of the shared
    type, whatever its tag says; none when the type is not supported. *)
Theorem parseField_inline (names : list string) (typ : Expr)
    (tag : option (list (string * string))) :
  (2 ≤ length names)%nat →
  parseField parseExpr (mkField names typ tag)
  = match parseExpr typ with
    | Some el => (λ nm, gen.mkStructField nm nm el) <$> names
    | None => []
    end.
Proof.
  intros Hlen.
  assert (Hin : parseField parseExpr (mkField names typ tag)
                = inline_names parseExpr typ names).
  { destruct names as [|n1 [|n2 names]]; simpl in Hlen; [lia|lia|done]. }
  rewrite Hin. clear Hin Hlen.
  destruct (parseExpr typ) as [el|] eqn:Hel.
  - induction names as [|nm nms IH]; [done|]. simpl. rewrite Hel. f_equal. exact IH.
  - destruct names; simpl; by rewrite ?Hel.
Qed.

Lemma parseField_inline_witness :
  (2 ≤ length ["A"; "B"])%nat
  ∧ parseField parseExpr (mkField ["A"; "B"] (Ident "int") (Some [("msg", "-")]))
    = [gen.mkStructField "A" "A" (gen.BaseE (gen.base gen.Int));
       gen.mkStructField "B" "B" (gen.BaseE (gen.base gen.Int))].
Proof.
  assert (Hlen : (2 ≤ length ["A"; "B"])%nat) by (simpl; lia).
  split; [exact Hlen|].
  exact (parseField_inline ["A"; "B"] (Ident "int") (Some [("msg", "-")]) Hlen).
Defined.

(** *** Strings *)

Lemma Split_free (s : string) (sep : Ascii.ascii) :
  free_of sep s = true → Split s sep = [s].
Proof.
  induction s as [|c s IH]; simpl; [done|].
  destruct (decide (c = sep)); [done|]. intros Hs. by rewrite IH.
Qed.

Lemma Split_app (a b : string) (sep : Ascii.ascii) :
  free_of sep a = true → Split (a +:+ String.String sep b) sep = a :: Split b sep.
Proof.
  induction a as [|c a IH]; simpl.
  - intros _. by rewrite decide_True.
  - destruct (decide (c = sep)); [done|]. intros Ha. by rewrite IH.
Qed.

Lemma free_of_app (a b : string) (sep : Ascii.ascii) :
  free_of sep a = true → free_of sep b = true → free_of sep (a +:+ b) = true.
Proof.
  induction a as [|c a IH]; simpl; [done|].
  destruct (decide (c = sep)); [done|]. apply IH.
Qed.

Lemma substring_all (s : string) : String.substring 0 (String.length s) s = s.
Proof. induction s as [|c s IH]; simpl; [done|]. by rewrite IH. Qed.

Lemma HasPrefix_app (p s : string) : HasPrefix (p +:+ s) p = true.
Proof.
  unfold HasPrefix. induction p as [|c p IH]; [by destruct s|].
  change (String.String c p +:+ s) with (String.String c (p +:+ s)). simpl.
  by destruct (ascii_dec c c).
Qed.

Lemma TrimPrefix_app (p s : string) : TrimPrefix (p +:+ s) p = s.
Proof.
  unfold TrimPrefix. rewrite HasPrefix_app.
  induction p as [|c p IH].
  - change ("" +:+ s) with s. simpl. rewrite Nat.sub_0_r. apply substring_all.
  - change (String.String c p +:+ s) with (String.String c (p +:+ s)). simpl. exact IH.
Qed.

Lemma parseShim_parts (T toShim fromShim : string) :
  free_of "/" toShim = true → free_of "/" fromShim = true →
  parseShim ("as:" +:+ T) ("using:" +:+ toShim +:+ "/" +:+ fromShim)
  = (pullIdent T, toShim, fromShim).
Proof.
  intros Hto Hfrom. unfold parseShim.
  rewrite !TrimPrefix_app.
  change (toShim +:+ "/" +:+ fromShim) with (toShim +:+ String.String "/" fromShim).
  rewrite Split_app by done. by rewrite Split_free.
Qed.

(** X13.  A field tagged [msg:"key,as:T,using:to/from"] becomes a base
    element of the kind of [T] with [Convert] set and the two converters,
    under the wire key [key] as it is written: the declared type of the
    field is not looked at, and the keys ["-"] and [""] are kept as they
    are. *)
Theorem parseField_shim (name key T toShim fromShim : string) (typ : Expr)
    (tag : list (string * string)) :
  StructTag_Get tag "msg"
  = key +:+ "," +:+ ("as:" +:+ T) +:+ "," +:+ ("using:" +:+ toShim +:+ "/" +:+ fromShim) →
  free_of "," key = true → free_of "," T = true →
  free_of "," toShim = true → free_of "," fromShim = true →
  free_of "/" toShim = true → free_of "/" fromShim = true →
  toShim ≠ "" → fromShim ≠ "" →
  parseField parseExpr (mkField [name] typ (Some tag))
  = [gen.mkStructField name key
       (gen.BaseE (gen.mkBaseElem (pullIdent T) "" true toShim fromShim))].
Proof.
  intros Hbody Hkey HT Hto Hfrom Hto' Hfrom' Hne1 Hne2.
  unfold parseField, tagged. rewrite Hbody.
  change (key +:+ "," +:+ ("as:" +:+ T) +:+ ","
            +:+ ("using:" +:+ toShim +:+ "/" +:+ fromShim))
    with (key +:+ String.String ","
            (("as:" +:+ T) +:+ String.String ","
               ("using:" +:+ toShim +:+ "/" +:+ fromShim))).
  rewrite Split_app by done.
  rewrite Split_app by (by apply (free_of_app "as:" T)).
  rewrite Split_free; cycle 1.
  { apply (free_of_app "using:"); [done|].
    apply free_of_app; [done|]. by apply (free_of_app "/"). }
  rewrite !HasPrefix_app. simpl andb. cbv iota.
  rewrite parseShim_parts by done.
  rewrite !bool_decide_eq_true_2 by done. done.
Qed.

Lemma parseField_shim_witness :
  parseField parseExpr
    (mkField ["When"] OtherExpr (Some [("msg", "-,as:int64,using:toUnix/fromUnix")]))
  = [gen.mkStructField "When" "-"
       (gen.BaseE (gen.mkBaseElem gen.Int64 "" true "toUnix" "fromUnix"))].
Proof.
  apply (parseField_shim "When" "-" "int64" "toUnix" "fromUnix" OtherExpr
           [("msg", "-,as:int64,using:toUnix/fromUnix")]);
    first [reflexivity | discriminate].
Defined.

Lemma after_tag_extension (typ : Expr) (name key : string) (sf : gen.StructField) :
  sf ∈ after_tag parseExpr typ name key true →
  key ≠ "-"
  ∧ gen.FieldName sf = name
  ∧ gen.FieldTag sf = (if decide (key = "") then name else key)
  ∧ ∃ b, (parseExpr typ = Some (gen.BaseE b)
           ∧ gen.FieldElem sf = gen.BaseE (as_extension b))
         ∨ (parseExpr typ = Some (gen.Ptr (gen.BaseE b))
            ∧ gen.FieldElem sf = gen.Ptr (gen.BaseE (as_extension b))).
Proof.
  unfold after_tag. intros Hsf.
  destruct (decide (key = "-")) as [|Hdash]; [by apply elem_of_nil in Hsf|].
  split; [done|].
  destruct (parseExpr typ) as [e|]; [|by apply elem_of_nil in Hsf].
  destruct e as [v| | | | |b]; simpl in Hsf;
    try (by apply elem_of_nil in Hsf).
  - destruct v as [| | | | |b]; try (by apply elem_of_nil in Hsf).
    apply list_elem_of_singleton in Hsf as ->. simpl.
    repeat split. exists b. by right.
  - apply list_elem_of_singleton in Hsf as ->. simpl.
    repeat split. exists b. by left.
Qed.

(** X14.  A field tagged [msg:"key,extension"] is kept only when its type
    is ingested as a base element or as a pointer to one; the element is
    then that one with its kind overwritten by [Ext], the identifier kept,
    and the wire key is [key], or the field name when [key] is empty; with
    the key ["-"] the field is omitted. *)
Theorem parseField_extension (name key : string) (typ : Expr)
    (tag : list (string * string)) (sf : gen.StructField) :
  StructTag_Get tag "msg" = key +:+ ",extension" →
  free_of "," key = true →
  sf ∈ parseField parseExpr (mkField [name] typ (Some tag)) →
  key ≠ "-"
  ∧ gen.FieldName sf = name
  ∧ gen.FieldTag sf = (if decide (key = "") then name else key)
  ∧ ∃ b, (parseExpr typ = Some (gen.BaseE b)
           ∧ gen.FieldElem sf = gen.BaseE (as_extension b))
         ∨ (parseExpr typ = Some (gen.Ptr (gen.BaseE b))
            ∧ gen.FieldElem sf = gen.Ptr (gen.BaseE (as_extension b))).
Proof.
  intros Hbody Hkey. unfold parseField, tagged. rewrite Hbody.
  change (key +:+ ",extension") with (key +:+ String.String "," "extension").
  rewrite Split_app by done. rewrite Split_free by reflexivity.
  rewrite bool_decide_eq_true_2 by done. apply after_tag_extension.
Qed.

Lemma parseField_extension_witness :
  parseField parseExpr (mkField ["E"] (StarExpr (Ident "MyExt")) (Some [("msg", "e,extension")]))
  = [gen.mkStructField "E" "e"
       (gen.Ptr (gen.BaseE (gen.mkBaseElem gen.Ext "MyExt" false "" "")))]
  ∧ "e" ≠ "-"
  ∧ ∃ b, (parseExpr (StarExpr (Ident "MyExt")) = Some (gen.BaseE b)
           ∧ gen.Ptr (gen.BaseE (gen.mkBaseElem gen.Ext "MyExt" false "" ""))
             = gen.BaseE (as_extension b))
         ∨ (parseExpr (StarExpr (Ident "MyExt")) = Some (gen.Ptr (gen.BaseE b))
            ∧ gen.Ptr (gen.BaseE (gen.mkBaseElem gen.Ext "MyExt" false "" ""))
              = gen.Ptr (gen.BaseE (as_extension b))).
Proof.
  assert (Hfield :
    parseField parseExpr
      (mkField ["E"] (StarExpr (Ident "MyExt")) (Some [("msg", "e,extension")]))
    = [gen.mkStructField "E" "e"
         (gen.Ptr (gen.BaseE (gen.mkBaseElem gen.Ext "MyExt" false "" "")))])
    by reflexivity.
  split; [exact Hfield|].
  assert (Hsf :
    gen.mkStructField "E" "e"
      (gen.Ptr (gen.BaseE (gen.mkBaseElem gen.Ext "MyExt" false "" "")))
    ∈ parseField parseExpr
        (mkField ["E"] (StarExpr (Ident "MyExt")) (Some [("msg", "e,extension")]))).
  { rewrite Hfield. apply list_elem_of_here. }
  pose proof (parseField_extension "E" "e" (StarExpr (Ident "MyExt"))
                [("msg", "e,extension")] _ eq_refl eq_refl Hsf)
    as (Hdash & _ & _ & Hb).
  split; [exact Hdash | exact Hb].
Defined.

(** ** The shape of the trees *)

Section Expr_nested_ind.
Variable P : Expr → Prop.
Hypothesis HIdent : ∀ name, P (Ident name).
Hypothesis HBasicLit : ∀ v, P (BasicLit v).
Hypothesis HStarExpr : ∀ x, P x → P (StarExpr x).
Hypothesis HArrayType : ∀ len elt, P elt → P (ArrayType len elt).
Hypothesis HMapType : ∀ key value, P value → P (MapType key value).
Hypothesis HStructType : ∀ fields,
  Forall (λ f, P (Type_ f)) fields → P (StructType fields).
Hypothesis HSelectorExpr : ∀ x sel, P (SelectorExpr x sel).
Hypothesis HInterfaceType : ∀ methods, P (InterfaceType methods).
Hypothesis HOtherExpr : P OtherExpr.

Fixpoint Expr_nested_ind (e : Expr) : P e :=
  match e with
  | Ident name => HIdent name
  | BasicLit v => HBasicLit v
  | StarExpr x => HStarExpr x (Expr_nested_ind x)
  | ArrayType len elt => HArrayType len elt (Expr_nested_ind elt)
  | MapType key value => HMapType key value (Expr_nested_ind value)
  | StructType fields =>
      HStructType fields
        ((fix all (fs : list Field) : Forall (λ f, P (Type_ f)) fs :=
            match fs with
            | [] => List.Forall_nil _
            | f :: fs =>
                List.Forall_cons _ f fs
                  (match f return P (Type_ f) with
                   | mkField _ t _ => Expr_nested_ind t
                   end)
                  (all fs)
            end) fields)
  | SelectorExpr x sel => HSelectorExpr x sel
  | InterfaceType methods => HInterfaceType methods
  | OtherExpr => HOtherExpr
  end.
End Expr_nested_ind.

(** Where the element of an ingested field comes from: it is the element
    of the declared type, or a base element or a pointer to one (extension
    and converter tags). *)
Lemma after_tag_elem (typ : Expr) (name key : string) (flag : bool)
    (sf : gen.StructField) :
  sf ∈ after_tag parseExpr typ name key flag →
  parseExpr typ = Some (gen.FieldElem sf)
  ∨ ∃ b, gen.FieldElem sf = gen.BaseE b ∨ gen.FieldElem sf = gen.Ptr (gen.BaseE b).
Proof.
  unfold after_tag. intros Hsf.
  destruct (decide (key = "-")); [by apply elem_of_nil in Hsf|].
  destruct (parseExpr typ) as [e|]; [|by apply elem_of_nil in Hsf].
  destruct flag.
  - destruct e as [v| | | | |b]; simpl in Hsf; try (by apply elem_of_nil in Hsf).
    + destruct v as [| | | | |b]; try (by apply elem_of_nil in Hsf).
      apply list_elem_of_singleton in Hsf as ->. right. eexists. by right.
    + apply list_elem_of_singleton in Hsf as ->. right. eexists. by left.
  - apply list_elem_of_singleton in Hsf as ->. by left.
Qed.

Lemma tagged_elem (typ : Expr) (tag : option (list (string * string)))
    (name : string) (sf : gen.StructField) :
  sf ∈ tagged parseExpr typ tag name →
  parseExpr typ = Some (gen.FieldElem sf)
  ∨ ∃ b, gen.FieldElem sf = gen.BaseE b ∨ gen.FieldElem sf = gen.Ptr (gen.BaseE b).
Proof.
  unfold tagged. destruct tag as [tag|]; [|apply after_tag_elem].
  destruct (Split (StructTag_Get tag "msg") ",") as [|t0 [|t1 [|t2 [|t3 ts]]]];
    try apply after_tag_elem.
  destruct (HasPrefix t1 "as:" && HasPrefix t2 "using:"); [|apply after_tag_elem].
  destruct (parseShim t1 t2) as [[tp toShim] fromShim].
  destruct (bool_decide (toShim ≠ "") && bool_decide (fromShim ≠ ""));
    [|by intros ?%elem_of_nil].
  intros ->%list_elem_of_singleton. right. eexists. by left.
Qed.

Lemma inline_names_elem (typ : Expr) (names : list string) (sf : gen.StructField) :
  sf ∈ inline_names parseExpr typ names → parseExpr typ = Some (gen.FieldElem sf).
Proof.
  induction names as [|nm nms IH]; simpl; [by intros ?%elem_of_nil|].
  destruct (parseExpr typ) as [el|]; [|by intros ?%elem_of_nil].
  intros [->|Hsf]%elem_of_cons; [done|by apply IH].
Qed.

Lemma parseField_elem (field : Field) (sf : gen.StructField) :
  sf ∈ parseField parseExpr field →
  parseExpr (Type_ field) = Some (gen.FieldElem sf)
  ∨ ∃ b, gen.FieldElem sf = gen.BaseE b ∨ gen.FieldElem sf = gen.Ptr (gen.BaseE b).
Proof.
  destruct field as [names typ tag]. cbn [Type_].
  destruct names as [|n1 [|n2 names]].
  - simpl. destruct (decide (embedded typ = "")); [by intros ?%elem_of_nil|].
    apply tagged_elem.
  - apply tagged_elem.
  - intros Hsf. left. by apply (inline_names_elem typ (n1 :: n2 :: names)).
Qed.

Lemma parseFieldList_with_elem (fl : list Field) (sf : gen.StructField) :
  sf ∈ parseFieldList_with parseExpr fl →
  ∃ f, f ∈ fl ∧ sf ∈ parseField parseExpr f.
Proof.
  induction fl as [|f fl IH]; simpl; [by intros ?%elem_of_nil|].
  intros [Hsf|Hsf]%elem_of_app.
  - exists f. split; [by left|done].
  - destruct (IH Hsf) as (f' & Hf' & Hsf'). exists f'. split; [by right|done].
Qed.

Lemma structs_Struct (nm : string) (fs : list gen.StructField) (asTuple : bool) :
  structs (gen.Struct nm fs asTuple)
  = gen.Struct nm fs asTuple :: flat_map (λ sf, structs (gen.FieldElem sf)) fs.
Proof.
  simpl. f_equal. induction fs as [|[name tag fe] fs IH]; [done|]. simpl. by rewrite IH.
Qed.

Lemma Forall_flat_map {A B : Type} (Q : B → Prop) (f : A → list B) (l : list A) :
  (∀ x, x ∈ l → Forall Q (f x)) → Forall Q (flat_map f l).
Proof.
  induction l as [|x l IH]; intros Hl; simpl; [constructor|].
  apply Forall_app. split; [apply Hl; by left|].
  apply IH. intros y Hy. apply Hl. by right.
Qed.

(** Every record [parseExpr] builds, at any depth, is anonymous, has a
    field and is encoded as a map. *)
Lemma parseExpr_structs (e : Expr) (v : gen.Elem) :
  parseExpr e = Some v → Forall anonymous_struct (structs v).
Proof.
  revert v.
  induction e as [name|lit|x IH|len elt IH|key value IH|fields IH|x sel|ms|]
    using Expr_nested_ind; intros v Hv; simpl in Hv.
  - simplify_eq. constructor.
  - done.
  - destruct (parseExpr x) as [v'|]; [|done]. simplify_eq. simpl. by apply IH.
  - destruct (match len with | Some _ => _ | None => _ end);
      [simplify_eq; constructor|].
    destruct (parseExpr elt) as [els|]; [|done].
    destruct len as [[]|]; simplify_eq; simpl; by apply IH.
  - destruct key; try done. case_decide; [|done].
    destruct (parseExpr value) as [in_|]; [|done]. simplify_eq. simpl. by apply IH.
  - destruct (parseFieldList_with parseExpr fields) as [|sf fs] eqn:Hfs; [done|].
    simplify_eq. rewrite structs_Struct. constructor; [by eexists|].
    apply Forall_flat_map. intros sf' Hsf'. rewrite <- Hfs in Hsf'.
    apply parseFieldList_with_elem in Hsf' as (f & Hf & Hsf').
    rewrite Forall_forall in IH.
    destruct (parseField_elem f sf' Hsf') as [He|(b & [-> | ->])];
      [by apply (IH f Hf) | constructor | constructor].
  - destruct x; try done. destruct (_ && _); simplify_eq; constructor.
  - destruct ms; simplify_eq; constructor.
  - done.
Qed.

Lemma struct_tree_Some (ts : TypeSpec) (el : gen.Elem) :
  struct_tree ts = Some el →
  ∃ fl, Type__ ts = StructType fl ∧ parseFieldList fl ≠ []
        ∧ el = gen.Ptr (gen.Struct (Name ts) (parseFieldList fl) false).
Proof.
  unfold struct_tree, GenElem. destruct (Type__ ts) as [| | | | |fl| | |]; try done.
  destruct (parseFieldList fl) as [|sf fs] eqn:Hfs; [done|]. simpl.
  intros ?; simplify_eq. exists fl. by rewrite Hfs.
Qed.

Lemma GenElem_tree (processed : gset string) (ts : TypeSpec) :
  (GenElem processed ts).2 = struct_tree ts.
Proof.
  unfold struct_tree, GenElem. destruct (Type__ ts); try done.
  by destruct (parseFieldList Fields).
Qed.

Lemma struct_tree_structs (ts : TypeSpec) (el : gen.Elem) :
  struct_tree ts = Some el →
  ∃ fs rest, el = gen.Ptr (gen.Struct (Name ts) fs false) ∧ fs ≠ []
    ∧ structs el = gen.Struct (Name ts) fs false :: rest
    ∧ Forall anonymous_struct rest.
Proof.
  intros (fl & Hts & Hne & ->)%struct_tree_Some.
  exists (parseFieldList fl), (flat_map (λ sf, structs (gen.FieldElem sf)) (parseFieldList fl)).
  split; [done|]. split; [done|].
  change (structs (gen.Ptr (gen.Struct (Name ts) (parseFieldList fl) false)))
    with (structs (gen.Struct (Name ts) (parseFieldList fl) false)).
  split; [apply structs_Struct|].
  apply Forall_flat_map. intros sf Hsf.
  apply parseFieldList_with_elem in Hsf as (f & Hf & Hsf).
  destruct (parseField_elem f sf Hsf) as [He|(b & [-> | ->])];
    [by eapply parseExpr_structs | constructor | constructor].
Qed.

(** X15.  The records of a tree: every record [parseExpr] builds, at any
    depth and below arrays too, is anonymous, has at least one field and is
    encoded as a map; in a tree [GenElem] returns, the root record carries
    the name of the declaration and is the only named one. *)
Theorem records_below_the_root_are_anonymous (e : Expr) (v : gen.Elem)
    (processed : gset string) (ts : TypeSpec) (el : gen.Elem) :
  parseExpr e = Some v →
  (GenElem processed ts).2 = Some el →
  Forall anonymous_struct (structs v)
  ∧ ∃ fs rest, el = gen.Ptr (gen.Struct (Name ts) fs false) ∧ fs ≠ []
      ∧ structs el = gen.Struct (Name ts) fs false :: rest
      ∧ Forall anonymous_struct rest.
Proof.
  intros Hv Hel. split; [by eapply parseExpr_structs|].
  rewrite GenElem_tree in Hel. by apply struct_tree_structs.
Qed.

Lemma records_below_the_root_are_anonymous_witness :
  Forall anonymous_struct
    (structs (gen.Slice (gen.Struct ""
       [gen.mkStructField "X" "X" (gen.BaseE (gen.base gen.Int))] false)))
  ∧ ∃ fs rest,
      gen.Ptr (gen.Struct "Outer"
        [gen.mkStructField "In" "In"
           (gen.Struct "" [gen.mkStructField "X" "X" (gen.BaseE (gen.base gen.Int))]
              false)] false)
      = gen.Ptr (gen.Struct "Outer" fs false) ∧ fs ≠ []
      ∧ structs (gen.Ptr (gen.Struct "Outer"
          [gen.mkStructField "In" "In"
             (gen.Struct "" [gen.mkStructField "X" "X" (gen.BaseE (gen.base gen.Int))]
                false)] false))
        = gen.Struct "Outer" fs false :: rest
      ∧ Forall anonymous_struct rest.
Proof.
  exact (records_below_the_root_are_anonymous
           (ArrayType None (StructType [mkField ["X"] (Ident "int") None]))
           (gen.Slice (gen.Struct ""
              [gen.mkStructField "X" "X" (gen.BaseE (gen.base gen.Int))] false))
           ∅
           (mkTypeSpec "Outer"
              (StructType
                 [mkField ["In"] (StructType [mkField ["X"] (Ident "int") None]) None]))
           (gen.Ptr (gen.Struct "Outer"
              [gen.mkStructField "In" "In"
                 (gen.Struct ""
                    [gen.mkStructField "X" "X" (gen.BaseE (gen.base gen.Int))] false)]
              false))
           eq_refl eq_refl).
Defined.

(** ** The resolver on its own *)

Section resolver.
Variable idents : gmap string gen.Base.
Variable processed : gset string.

(** What [findUnresolved] makes of one base element. *)
Lemma findUnresolved_BaseE (b : gen.BaseElem) :
  ∃ b', (findUnresolved idents processed (gen.BaseE b)).1 = gen.BaseE b'.
Proof. simpl. repeat case_match; by eexists. Qed.

Lemma resolve_fields_flat_map (fs : list gen.StructField) :
  (resolve_fields idents processed fs).2
  = flat_map (λ sf, (findUnresolved idents processed (gen.FieldElem sf)).2) fs.
Proof.
  induction fs as [|[name tag fe] fs IH]; [done|].
  rewrite resolve_fields_cons. simpl. by rewrite IH.
Qed.

Lemma resolve_fields_fmap (fs : list gen.StructField) :
  (resolve_fields idents processed fs).1
  = (λ sf, gen.mkStructField (gen.FieldName sf) (gen.FieldTag sf)
             (findUnresolved idents processed (gen.FieldElem sf)).1) <$> fs.
Proof.
  induction fs as [|[name tag fe] fs IH]; [done|].
  rewrite resolve_fields_cons. simpl. by rewrite IH.
Qed.

(** The resolver treats every base element it reaches on its own: the
    base elements of the tree afterwards are the ones before, each as
    [findUnresolved] leaves it. *)
Lemma findUnresolved_walked (g : gen.Elem) :
  walked_bases (findUnresolved idents processed g).1
  = flat_map (λ b, walked_bases (findUnresolved idents processed (gen.BaseE b)).1)
      (walked_bases g).
Proof.
  induction g as [v IH|els IH|size els _|v IH|nm fs asTuple IH|b0]
    using Elem_nested_ind.
  - simpl. by destruct (findUnresolved idents processed v).
  - simpl. by destruct (findUnresolved idents processed els).
  - done.
  - simpl. by destruct (findUnresolved idents processed v).
  - rewrite findUnresolved_Struct. cbn [fst]. rewrite !walked_bases_Struct.
    rewrite resolve_fields_fmap. clear nm asTuple.
    induction IH as [|[name tag fe] fs Hfe _ IHfs]; [done|].
    cbn [fmap list_fmap flat_map gen.FieldElem gen.FieldName gen.FieldTag] in *.
    rewrite flat_map_app. by rewrite <- Hfe, <- IHfs.
  - cbn [walked_bases flat_map]. by rewrite app_nil_r.
Qed.

(** Running the resolver again on its result changes nothing and reports
    the same identifiers. *)
Lemma findUnresolved_again (g : gen.Elem) :
  findUnresolved idents processed (findUnresolved idents processed g).1
  = findUnresolved idents processed g.
Proof.
  induction g as [v IH|els IH|size els _|v IH|nm fs asTuple IH|b0]
    using Elem_nested_ind.
  - simpl. destruct (findUnresolved idents processed v) as [v' unr] eqn:Hv.
    simpl in *. by rewrite IH.
  - simpl. destruct (findUnresolved idents processed els) as [v' unr] eqn:Hv.
    simpl in *. by rewrite IH.
  - done.
  - simpl. destruct (findUnresolved idents processed v) as [v' unr] eqn:Hv.
    simpl in *. by rewrite IH.
  - rewrite (findUnresolved_Struct idents processed nm fs asTuple). cbn [fst].
    rewrite findUnresolved_Struct.
    assert (Hfs : resolve_fields idents processed (resolve_fields idents processed fs).1
                  = resolve_fields idents processed fs).
    { clear nm asTuple. induction IH as [|[name tag fe] fs Hfe _ IHfs]; [done|].
      rewrite !resolve_fields_cons. cbn [fst snd gen.FieldElem] in *.
      rewrite resolve_fields_cons. by rewrite Hfe, IHfs. }
    by rewrite Hfs.
  - simpl. destruct (decide (gen.Value b0 = gen.IDENT)) as [Hv|Hv]; cycle 1.
    { simpl. by rewrite decide_False. }
    destruct (idents !! gen.Ident b0) as [tp|] eqn:Hid.
    + destruct (decide (gen.Ident b0 ∈ processed)) as [Hp|Hp].
      { simpl. rewrite decide_True by done. rewrite Hid. by rewrite decide_True. }
      destruct (decide (tp ≠ gen.IDENT)) as [Htp|Htp].
      { simpl. by rewrite decide_False. }
      simpl. rewrite decide_True by done. rewrite Hid.
      rewrite decide_False by done. by rewrite decide_False.
    + simpl. rewrite decide_True by done. by rewrite Hid.
Qed.

(** Who is reported: the name of a record the table does not hold, or the
    identifier of a base element that stays [IDENT]. *)
Lemma findUnresolved_reported (g : gen.Elem) (u : string) :
  u ∈ (findUnresolved idents processed g).2 →
  (u ≠ "" ∧ idents !! u = None
   ∧ ∃ fs asTuple, gen.Struct u fs asTuple ∈ structs g)
  ∨ (∃ b, b ∈ walked_bases g ∧ b ∈ walked_bases (findUnresolved idents processed g).1
        ∧ gen.Value b = gen.IDENT ∧ gen.Ident b = u
        ∧ (idents !! u = None ∨ (idents !! u = Some gen.IDENT ∧ u ∉ processed))).
Proof.
  induction g as [v IH|els IH|size els _|v IH|nm fs asTuple IH|b0]
    using Elem_nested_ind.
  - simpl. destruct (findUnresolved idents processed v). apply IH.
  - simpl. destruct (findUnresolved idents processed els). apply IH.
  - by intros ?%elem_of_nil.
  - simpl. destruct (findUnresolved idents processed v). apply IH.
  - rewrite findUnresolved_Struct. cbn [fst snd].
    rewrite structs_Struct, !walked_bases_Struct.
    rewrite resolve_fields_flat_map, resolve_fields_fmap.
    intros [Hu|Hu]%elem_of_app.
    + left. destruct (decide (idents !! nm = None ∧ nm ≠ "")) as [[Hnone Hnm]|];
        [|by apply elem_of_nil in Hu].
      apply list_elem_of_singleton in Hu as ->.
      split; [done|]. split; [done|]. exists fs, asTuple. by left.
    + assert (Hfs :
        (u ≠ "" ∧ idents !! u = None
         ∧ ∃ fs' asTuple',
             gen.Struct u fs' asTuple' ∈ flat_map (λ sf, structs (gen.FieldElem sf)) fs)
        ∨ (∃ b, b ∈ flat_map (λ sf, walked_bases (gen.FieldElem sf)) fs
              ∧ b ∈ flat_map (λ sf, walked_bases (gen.FieldElem sf))
                      ((λ sf, gen.mkStructField (gen.FieldName sf) (gen.FieldTag sf)
                                (findUnresolved idents processed (gen.FieldElem sf)).1)
                         <$> fs)
              ∧ gen.Value b = gen.IDENT ∧ gen.Ident b = u
              ∧ (idents !! u = None
                 ∨ (idents !! u = Some gen.IDENT ∧ u ∉ processed)))).
      { induction IH as [|sf fs Hsf _ IHfs]; [by apply elem_of_nil in Hu|].
        cbn [flat_map fmap list_fmap gen.FieldElem] in Hu |- *.
        apply elem_of_app in Hu as [Hu|Hu].
        - destruct (Hsf Hu) as [(Hne & Hnone & fs' & t' & Hin)
                               |(b & Hb & Hb' & Hv & Hi & Hwhy)].
          + left. split; [done|]. split; [done|]. exists fs', t'.
            apply elem_of_app. by left.
          + right. exists b. split; [apply elem_of_app; by left|].
            split; [apply elem_of_app; by left|]. done.
        - destruct (IHfs Hu) as [(Hne & Hnone & fs' & t' & Hin)
                                |(b & Hb & Hb' & Hv & Hi & Hwhy)].
          + left. split; [done|]. split; [done|]. exists fs', t'.
            apply elem_of_app. by right.
          + right. exists b. split; [apply elem_of_app; by right|].
            split; [apply elem_of_app; by right|]. done. }
      destruct Hfs as [(Hne & Hnone & fs' & t' & Hin)|Hb].
      * left. split; [done|]. split; [done|]. exists fs', t'. by right.
      * by right.
  - simpl. destruct (decide (gen.Value b0 = gen.IDENT)) as [Hv|Hv];
      [|by intros ?%elem_of_nil].
    destruct (idents !! gen.Ident b0) as [tp|] eqn:Hid.
    + destruct (decide (gen.Ident b0 ∈ processed)) as [Hp|Hp];
        [by intros ?%elem_of_nil|].
      destruct (decide (tp ≠ gen.IDENT)) as [Htp|Htp]; [by intros ?%elem_of_nil|].
      intros ->%list_elem_of_singleton. right. exists b0.
      split; [by left|]. split; [by left|]. split; [done|]. split; [done|].
      right. split; [|done]. rewrite Hid. f_equal.
      by destruct (decide (tp = gen.IDENT)).
    + intros ->%list_elem_of_singleton. right. exists b0.
      split; [by left|]. split; [by left|]. split; [done|]. split; [done|]. by left.
Qed.

(** X16.  The resolver is idempotent: a second run on the tree it left
    changes no element and returns the same identifiers as the first. *)
Theorem findUnresolved_idempotent (g : gen.Elem) :
  findUnresolved idents processed (findUnresolved idents processed g).1
  = ((findUnresolved idents processed g).1, (findUnresolved idents processed g).2).
Proof. rewrite findUnresolved_again. by destruct (findUnresolved idents processed g). Qed.

(** X17.  Every alias the resolver reaches is lowered: a base element
    with value [IDENT] that is reachable through [Ptr], [Slice], [Map] and
    the fields of a [Struct], and whose identifier the table maps to a kind
    other than [IDENT] and is not a processed type, is in the tree
    afterwards with that kind, the identifier kept, [Convert] set and no
    converters; and the resolver does not report it. *)
Theorem findUnresolved_lowers_reached_aliases (g : gen.Elem) (b : gen.BaseElem)
    (tp : gen.Base) :
  b ∈ walked_bases g →
  gen.Value b = gen.IDENT →
  idents !! gen.Ident b = Some tp → tp ≠ gen.IDENT →
  gen.Ident b ∉ processed →
  gen.mkBaseElem tp (gen.Ident b) true "" ""
    ∈ walked_bases (findUnresolved idents processed g).1
  ∧ gen.Ident b ∉ (findUnresolved idents processed g).2.
Proof.
  intros Hb Hv Hid Htp Hp. split.
  - rewrite findUnresolved_walked. apply list_elem_of_In, in_flat_map.
    exists b. split; [by apply list_elem_of_In|].
    rewrite (findUnresolved_alias idents processed b tp) by done. by left.
  - intros Hrep. apply findUnresolved_reported in Hrep
      as [(_ & Hnone & _)|(b' & _ & _ & _ & _ & [Hnone|[Hsome _]])]; congruence.
Qed.

End resolver.

Lemma findUnresolved_lowers_reached_aliases_witness :
  gen.mkBaseElem gen.Float64 "Celsius" true "" ""
    ∈ walked_bases
        (findUnresolved {[ "Celsius" := gen.Float64 ]} ∅
           (gen.Slice (gen.BaseE (gen.ident "Celsius")))).1
  ∧ "Celsius" ∉ (findUnresolved {[ "Celsius" := gen.Float64 ]} ∅
                   (gen.Slice (gen.BaseE (gen.ident "Celsius")))).2.
Proof.
  apply (findUnresolved_lowers_reached_aliases {[ "Celsius" := gen.Float64 ]} ∅
           (gen.Slice (gen.BaseE (gen.ident "Celsius"))) (gen.ident "Celsius")
           gen.Float64).
  - apply list_elem_of_here.
  - reflexivity.
  - reflexivity.
  - discriminate.
  - set_solver.
Defined.

(** ** [GetElems] as a whole *)

(** The first loop of [GetElems]. *)
Lemma specs_loop (files : list File) (idents : gmap string gen.Base)
    (acc : list TypeSpec) :
  foldl (λ acc file,
           let '(idents, specs) := GetTypeSpecs acc.1 file in
           (idents, acc.2 ++ specs)) (idents, acc) files
  = (foldl record_ident idents (unit_specs files), acc ++ unit_specs files).
Proof.
  revert idents acc. induction files as [|file files IH]; intros idents acc; simpl.
  - by rewrite app_nil_r.
  - rewrite GetTypeSpecs_fold, IH. unfold unit_specs. simpl.
    by rewrite foldl_app, <- app_assoc.
Qed.

(** The second loop of [GetElems]. *)
Lemma trees_loop (specs : list TypeSpec) (processed : gset string)
    (acc : list gen.Elem) :
  foldl (λ acc spec,
           match GenElem acc.1 spec with
           | (processed, Some el) => (processed, acc.2 ++ [el])
           | (processed, None) => (processed, acc.2)
           end) (processed, acc) specs
  = (foldl (λ processed spec, (GenElem processed spec).1) processed specs,
     acc ++ omap struct_tree specs).
Proof.
  revert processed acc. induction specs as [|ts specs IH]; intros processed acc; simpl.
  - by rewrite app_nil_r.
  - rewrite <- (GenElem_tree processed ts).
    destruct (GenElem processed ts) as [processed' [el|]]; simpl; rewrite IH; [|done].
    by rewrite <- app_assoc.
Qed.

Lemma GetElems_unfold (g : Globals) (files : list File) :
  let idents := foldl record_ident (globalIdents g) (unit_specs files) in
  let processed :=
    foldl (λ processed spec, (GenElem processed spec).1) (globalProcessed g)
      (unit_specs files) in
  GetElems g files
  = (mkGlobals idents processed,
     (λ o, (findUnresolved idents processed o).1) <$> omap struct_tree (unit_specs files),
     flat_map (λ o, (findUnresolved idents processed o).2)
       (omap struct_tree (unit_specs files))).
Proof.
  intros idents processed. unfold GetElems. rewrite specs_loop.
  rewrite app_nil_l. fold idents.
  destruct (unit_specs files) as [|ts specs] eqn:Hspecs; [done|].
  rewrite trees_loop. fold processed. rewrite resolve_loop. done.
Qed.

Lemma processed_grows (specs : list TypeSpec) (processed : gset string) (n : string) :
  n ∈ processed →
  n ∈ foldl (λ processed spec, (GenElem processed spec).1) processed specs.
Proof.
  revert processed. induction specs as [|ts specs IH]; intros processed Hn; [done|].
  simpl. apply IH. unfold GenElem. destruct (Type__ ts); try done.
  destruct (parseFieldList Fields); simpl; set_solver.
Qed.

Lemma processed_struct (specs : list TypeSpec) (processed : gset string)
    (ts : TypeSpec) (fl : list Field) :
  ts ∈ specs → Type__ ts = StructType fl →
  Name ts ∈ foldl (λ processed spec, (GenElem processed spec).1) processed specs.
Proof.
  revert processed. induction specs as [|ts' specs IH]; intros processed Hts Hfl;
    [by apply elem_of_nil in Hts|].
  simpl. apply elem_of_cons in Hts as [<-|Hts]; [|by apply IH].
  apply processed_grows. unfold GenElem. rewrite Hfl.
  destruct (parseFieldList fl); simpl; set_solver.
Qed.

Lemma recorded_struct (specs : list TypeSpec) (idents : gmap string gen.Base)
    (ts : TypeSpec) (fl : list Field) :
  ts ∈ specs → Type__ ts = StructType fl →
  is_Some (foldl record_ident idents specs !! Name ts).
Proof.
  revert idents. induction specs as [|ts' specs IH]; intros idents Hts Hfl;
    [by apply elem_of_nil in Hts|].
  simpl. apply elem_of_cons in Hts as [<-|Hts]; [|by apply IH].
  apply record_fold_keeps. unfold record_ident. rewrite Hfl.
  rewrite lookup_insert_eq. by eexists.
Qed.

(** X18.  Every tree [GetElems] returns is a pointer to a record that
    carries the name of a record declaration of the unit, has at least one
    field and is encoded as a map; its fields have the names and wire keys
    [parseFieldList] gave them, resolution changing elements only; and the
    name is a processed type and is in the table of identifiers. *)
Theorem GetElems_trees (g : Globals) (files : list File) (tree : gen.Elem) :
  tree ∈ (GetElems g files).1.2 →
  ∃ ts fl fs,
    ts ∈ unit_specs files ∧ Type__ ts = StructType fl
    ∧ tree = gen.Ptr (gen.Struct (Name ts) fs false) ∧ fs ≠ []
    ∧ (λ sf, (gen.FieldName sf, gen.FieldTag sf)) <$> fs
      = (λ sf, (gen.FieldName sf, gen.FieldTag sf)) <$> parseFieldList fl
    ∧ Name ts ∈ globalProcessed (GetElems g files).1.1
    ∧ is_Some (globalIdents (GetElems g files).1.1 !! Name ts).
Proof.
  rewrite GetElems_unfold. cbn [fst snd globalProcessed globalIdents].
  set (idents := foldl record_ident (globalIdents g) (unit_specs files)).
  set (processed := foldl _ (globalProcessed g) (unit_specs files)).
  intros (o & -> & Ho)%list_elem_of_fmap.
  apply list_elem_of_omap in Ho as (ts & Hts & Ho).
  apply struct_tree_Some in Ho as (fl & Hfl & Hne & ->).
  exists ts, fl, (resolve_fields idents processed (parseFieldList fl)).1.
  split; [done|]. split; [done|].
  split.
  { change (findUnresolved idents processed
              (gen.Ptr (gen.Struct (Name ts) (parseFieldList fl) false)))
      with (let '(v, unr) :=
              findUnresolved idents processed
                (gen.Struct (Name ts) (parseFieldList fl) false) in
            (gen.Ptr v, unr)).
    by rewrite findUnresolved_Struct. }
  rewrite resolve_fields_fmap.
  split; [by destruct (parseFieldList fl)|].
  split.
  { rewrite <- list_fmap_compose. by apply list_fmap_ext. }
  split; [by eapply processed_struct | by eapply recorded_struct].
Qed.

Lemma GetElems_trees_witness :
  B_tree ∈ (GetElems init [AB_unit]).1.2
  ∧ ∃ ts fl fs,
      ts ∈ unit_specs [AB_unit] ∧ Type__ ts = StructType fl
      ∧ B_tree = gen.Ptr (gen.Struct (Name ts) fs false) ∧ fs ≠ []
      ∧ (λ sf, (gen.FieldName sf, gen.FieldTag sf)) <$> fs
        = (λ sf, (gen.FieldName sf, gen.FieldTag sf)) <$> parseFieldList fl
      ∧ Name ts ∈ globalProcessed (GetElems init [AB_unit]).1.1
      ∧ is_Some (globalIdents (GetElems init [AB_unit]).1.1 !! Name ts).
Proof.
  assert (Htree : B_tree ∈ (GetElems init [AB_unit]).1.2).
  { vm_compute. apply list_elem_of_further, list_elem_of_here. }
  split; [exact Htree|].
  exact (GetElems_trees init [AB_unit] B_tree Htree).
Defined.

(** X19.  Whatever [GetElems] reports is the identifier of a base element
    that is still [IDENT] in one of the trees it returns, and it is either
    not in the table of identifiers, or mapped to [IDENT] there and not a
    processed type: the name of a record is never reported. *)
Theorem GetElems_report (g : Globals) (files : list File) (u : string) :
  u ∈ (GetElems g files).2 →
  (globalIdents (GetElems g files).1.1 !! u = None
   ∨ (globalIdents (GetElems g files).1.1 !! u = Some gen.IDENT
      ∧ u ∉ globalProcessed (GetElems g files).1.1))
  ∧ ∃ tree b, tree ∈ (GetElems g files).1.2 ∧ b ∈ walked_bases tree
      ∧ gen.Value b = gen.IDENT ∧ gen.Ident b = u.
Proof.
  rewrite GetElems_unfold. cbn [fst snd globalProcessed globalIdents].
  set (idents := foldl record_ident (globalIdents g) (unit_specs files)).
  set (processed := foldl _ (globalProcessed g) (unit_specs files)).
  intros Hu. apply list_elem_of_In, in_flat_map in Hu as (o & Ho & Hu).
  apply list_elem_of_In in Ho, Hu.
  pose proof Ho as Hts. apply list_elem_of_omap in Hts as (ts & Hts & Htree).
  pose proof Htree as Hfl. apply struct_tree_Some in Hfl as (fl & Hfl & _ & _).
  apply struct_tree_structs in Htree as (fs & rest & -> & _ & Hstructs & Hrest).
  apply findUnresolved_reported in Hu
    as [(Hne & Hnone & fs' & t' & Hin)|(b & _ & Hb & Hv & Hi & Hwhy)].
  - exfalso. rewrite Hstructs in Hin. apply elem_of_cons in Hin as [Heq|Hin].
    + simplify_eq.
      destruct (recorded_struct (unit_specs files) (globalIdents g) ts fl Hts Hfl)
        as [k Hk]. fold idents in Hk. congruence.
    + rewrite Forall_forall in Hrest. destruct (Hrest _ Hin) as (fs'' & Heq & _).
      by simplify_eq.
  - split; [done|]. eexists _, b. split; [|done].
    apply list_elem_of_fmap. by eexists.
Qed.

Lemma GetElems_report_witness :
  "Celsius" ∈ (GetElems init [Thermo_alone_unit]).2
  ∧ (globalIdents (GetElems init [Thermo_alone_unit]).1.1 !! "Celsius" = None
     ∨ (globalIdents (GetElems init [Thermo_alone_unit]).1.1 !! "Celsius"
        = Some gen.IDENT
        ∧ "Celsius" ∉ globalProcessed (GetElems init [Thermo_alone_unit]).1.1))
  ∧ ∃ tree b,
      tree ∈ (GetElems init [Thermo_alone_unit]).1.2
      ∧ b ∈ walked_bases tree ∧ gen.Value b = gen.IDENT ∧ gen.Ident b = "Celsius".
Proof.
  assert (Hu : "Celsius" ∈ (GetElems init [Thermo_alone_unit]).2).
  { vm_compute. apply list_elem_of_here. }
  split; [exact Hu|].
  exact (GetElems_report init [Thermo_alone_unit] "Celsius" Hu).
Defined.

(** ** Pointers at every depth *)




(** A tree with a pointer collapsed below a slice does not mirror the
    type expression. *)
Example mirrors_no_collapse :
  ¬ mirrors (ArrayType None (StarExpr (StarExpr (Ident "int"))))
      (gen.Slice (gen.Ptr (gen.BaseE (gen.base gen.Int)))).
Proof.
  intros H. inversion H as [| |elt v _ Hslice| | |]; subst.
  inversion Hslice as [|x v Hptr| | | |]; subst.
  inversion Hptr as [e b Hleaf| | | | |]; subst. destruct Hleaf.
Qed.







End parse_proofs.
